(** * The miner-address registry of venus-miner

    A shallow embedding of [node/modules/minermanage/minermanage.go]: the
    [MinerManager] keeps an ordered in-memory list of miner records and
    mirrors it into a key-value datastore, together with a pointer to the
    default miner.  The mutex [lk] only serialises callers; the embedding is
    the sequential behaviour of each method while it holds the lock. *)

From Stdlib.Strings Require Import String Byte.
From Stdlib Require Import ZArith.
From stdpp Require Import base decidable option list strings gmap.

Set Default Proof Using "Type".


(** ** Errors, byte strings and keys *)

(** Go's [error] values.  [ErrNotFound] is the sentinel of go-datastore and
    [ErrNoDefault] the package variable of minermanage.go; the code compares
    errors against the sentinel by identity, which is constructor equality
    here.  A [nil] error is [None]. *)
Inductive error : Type :=
| ErrNotFound
| ErrNoDefault
| ErrStore (msg : string)
| ErrJSON (msg : string)
| ErrAddress (msg : string).

#[global] Instance error_eq_dec : EqDecision error.
Proof. solve_decision. Defined.

Abbreviation bytes := (list byte).

#[global] Instance byte_eq_decision : EqDecision byte := Byte.byte_eq_dec.

Abbreviation Key := string (only parsing).

(** [datastore.NewKey] on a name without slashes is the name under the root. *)
Definition NewKey (s : string) : Key := "/" +:+ s.

Definition actorKey : string := "miner-actors".
Definition defaultKey : string := "default-actor".

(** ** The address codec (go-address)

    Addresses are opaque to the registry: it renders them ([String]), turns
    them into bytes and back, and knows the undefined address. *)
Class AddressCodec (Address : Type) := {
  addr_String : Address → string;
  addr_Bytes : Address → bytes;
  NewFromBytes : bytes → Address * option error;
  Undef : Address
}.

(** ** Records (package dtypes) *)

(** Modelled from the spec: the declaration of the connection descriptors of
    [dtypes.MinerInfo] is not among the sources; the fields are the ones
    minermanage.go reads and writes. *)
Record NodeInfo : Type := {
  ListenAPI : string;
  Token : string
}.

(** Modelled from the spec: the declaration of [dtypes.MinerInfo] is not
    among the sources; the fields are those used by minermanage.go and by the
    [add] command. *)
Record MinerInfo (Address : Type) : Type := {
  Addr : Address;
  Id : string;
  Name : string;
  Sealer : NodeInfo;
  Wallet : NodeInfo
}.

Arguments Addr {Address} _.
Arguments Id {Address} _.
Arguments Name {Address} _.
Arguments Sealer {Address} _.
Arguments Wallet {Address} _.

(** encoding/json on the record list.  Both directions return Go's pair of a
    value and an error. *)
Class JSONCodec (Address : Type) := {
  Marshal : list (MinerInfo Address) → bytes * option error;
  Unmarshal : bytes → list (MinerInfo Address) * option error
}.

(** ** The datastore *)

(** Modelled from the spec: [dtypes.MetadataDS], a go-datastore, is not among
    the sources.  It is the external key-value store with the contract
    [get(key) -> bytes | NotFound] and [put(key, bytes) -> ok | error].  Its
    content is a finite map.  Whether a call fails is not under the control
    of the registry: [script] lists the outcome of the calls to come, one
    entry per call ([Some e]: the call fails with [e] and changes nothing; no
    entry or [None]: the call goes through).  [writes] is the history of the
    [Put] calls the store has received, failed ones included. *)
Record MetadataDS : Type := {
  cells : gmap string bytes;
  script : list (option error);
  writes : list (string * bytes)
}.

Definition next_fault (ds : MetadataDS) : option error :=
  match script ds with
  | Some e :: _ => Some e
  | _ => None
  end.

Definition ds_Get (ds : MetadataDS) (k : Key) : (bytes * option error) * MetadataDS :=
  let ds' := {| cells := cells ds; script := tail (script ds); writes := writes ds |} in
  match next_fault ds with
  | Some e => (([], Some e), ds')
  | None =>
      match cells ds !! k with
      | Some v => ((v, None), ds')
      | None => (([], Some ErrNotFound), ds')
      end
  end.

Definition ds_Put (ds : MetadataDS) (k : Key) (v : bytes) : option error * MetadataDS :=
  match next_fault ds with
  | Some e =>
      (Some e, {| cells := cells ds; script := tail (script ds);
                  writes := writes ds ++ [(k, v)] |})
  | None =>
      (None, {| cells := <[k := v]> (cells ds); script := tail (script ds);
                writes := writes ds ++ [(k, v)] |})
  end.

(** ** The manager *)

Section Manager.
Context {Address : Type} `{!AddressCodec Address} `{!JSONCodec Address}.

Abbreviation Miner := (MinerInfo Address).

Record MinerManager : Type := {
  miners : list Miner;
  da : MetadataDS
}.

(** [a.String() == b.String()] *)
Definition same_addr (a b : Address) : bool :=
  bool_decide (addr_String a = addr_String b).

Definition NewMinerManger (ds : MetadataDS)
  : (option MinerManager * option error) * MetadataDS :=
  let '((addrBytes, err), ds) := ds_Get ds (NewKey actorKey) in
  if bool_decide (err ≠ None) && bool_decide (err ≠ Some ErrNotFound) then
    ((None, err), ds)
  else if bool_decide (err ≠ Some ErrNotFound) then
    let '(miners, err) := Unmarshal addrBytes in
    match err with
    | Some _ => ((None, err), ds)
    | None => ((Some {| miners := miners; da := ds |}, None), ds)
    end
  else
    ((Some {| miners := []; da := ds |}, None), ds).

Fixpoint Has_loop (ms : list Miner) (addr : Address) : bool :=
  match ms with
  | [] => false
  | miner :: ms =>
      if same_addr (Addr miner) addr then true else Has_loop ms addr
  end.

Definition Has (m : MinerManager) (addr : Address) : bool :=
  Has_loop (miners m) addr.

Definition Put (miner : Miner) (m : MinerManager) : option error * MinerManager :=
  if Has m (Addr miner) then (None, m)
  else
    let newMiner := miners m ++ [miner] in
    let '(addrBytes, err) := Marshal newMiner in
    match err with
    | Some _ => (err, m)
    | None =>
        let '(err, ds) := ds_Put (da m) (NewKey actorKey) addrBytes in
        match err with
        | Some _ => (err, {| miners := miners m; da := ds |})
        | None => (None, {| miners := newMiner; da := ds |})
        end
    end.

Definition set_Sealer_ListenAPI (v : string) (r : Miner) : Miner :=
  {| Addr := Addr r; Id := Id r; Name := Name r;
     Sealer := {| ListenAPI := v; Token := Token (Sealer r) |};
     Wallet := Wallet r |}.

Definition set_Sealer_Token (v : string) (r : Miner) : Miner :=
  {| Addr := Addr r; Id := Id r; Name := Name r;
     Sealer := {| ListenAPI := ListenAPI (Sealer r); Token := v |};
     Wallet := Wallet r |}.

Definition set_Wallet_ListenAPI (v : string) (r : Miner) : Miner :=
  {| Addr := Addr r; Id := Id r; Name := Name r;
     Sealer := Sealer r;
     Wallet := {| ListenAPI := v; Token := Token (Wallet r) |} |}.

Definition set_Wallet_Token (v : string) (r : Miner) : Miner :=
  {| Addr := Addr r; Id := Id r; Name := Name r;
     Sealer := Sealer r;
     Wallet := {| ListenAPI := ListenAPI (Wallet r); Token := v |} |}.

(** [incoming != "" && incoming != current] *)
Definition overrides (incoming current : string) : bool :=
  bool_decide (incoming ≠ "") && bool_decide (incoming ≠ current).

(** The four guarded assignments to [m.miners[k]] (lines 84 to 98), in the
    order of the source; [r] is the record at index [k]. *)
Definition merge (miner r : Miner) : Miner :=
  let r := if overrides (ListenAPI (Sealer miner)) (ListenAPI (Sealer r))
           then set_Sealer_ListenAPI (ListenAPI (Sealer miner)) r else r in
  let r := if overrides (Token (Sealer miner)) (Token (Sealer r))
           then set_Sealer_Token (Token (Sealer miner)) r else r in
  let r := if overrides (ListenAPI (Wallet miner)) (ListenAPI (Wallet r))
           then set_Wallet_ListenAPI (ListenAPI (Wallet miner)) r else r in
  let r := if overrides (Token (Wallet miner)) (Token (Wallet r))
           then set_Wallet_Token (Token (Wallet miner)) r else r in
  r.

(** The body of the [if] in the loop of [Set] once index [k] has matched:
    merge in place, serialise the whole list, write it, leave the loop. *)
Definition Set_at (miner : Miner) (k : nat) (m : MinerManager)
  : option error * MinerManager :=
  let m := {| miners := alter (merge miner) k (miners m); da := da m |} in
  let '(addrBytes, err) := Marshal (miners m) in
  match err with
  | Some _ => (err, m)
  | None =>
      let '(err, ds) := ds_Put (da m) (NewKey actorKey) addrBytes in
      match err with
      | Some _ => (err, {| miners := miners m; da := ds |})
      | None => (None, {| miners := miners m; da := ds |})
      end
  end.

(** [for k, addr := range m.miners]: [rest] is what the range has still to
    visit and [k] the index of its head. *)
Fixpoint Set_loop (miner : Miner) (k : nat) (rest : list Miner) (m : MinerManager)
  : option error * MinerManager :=
  match rest with
  | [] => (None, m)
  | addr :: rest =>
      if same_addr (Addr addr) (Addr miner) then Set_at miner k m
      else Set_loop miner (S k) rest m
  end.

(** [Set] (a reserved word here, hence the underscore). *)
Definition Set_ (miner : Miner) (m : MinerManager) : option error * MinerManager :=
  Set_loop miner 0 (miners m) m.

(** [Get] returns a pointer into the slice: the index of the live record. *)
Fixpoint Get_loop (k : nat) (ms : list Miner) (addr : Address) : option nat :=
  match ms with
  | [] => None
  | miner :: ms =>
      if same_addr (Addr miner) addr then Some k else Get_loop (S k) ms addr
  end.

Definition Get (m : MinerManager) (addr : Address) : option nat :=
  Get_loop 0 (miners m) addr.

Definition List (m : MinerManager) : list Miner * option error :=
  (miners m, None).

Definition Count (m : MinerManager) : nat := length (miners m).

Fixpoint findAddress (addr : Address) (addrs : list Address) : bool :=
  match addrs with
  | [] => false
  | a :: addrs =>
      if negb (same_addr a addr) then true else findAddress addr addrs
  end.

(** The loop of [Remove]; [newMiners] is the slice built so far. *)
Fixpoint Remove_loop (addrs : list Address) (ms newMiners : list Miner) : list Miner :=
  match ms with
  | [] => newMiners
  | miner :: ms =>
      if negb (findAddress (Addr miner) addrs)
      then Remove_loop addrs ms (newMiners ++ [miner])
      else Remove_loop addrs ms newMiners
  end.

Definition Remove (addrs : list Address) (m : MinerManager)
  : option error * MinerManager :=
  let newMiners := Remove_loop addrs (miners m) [] in
  let '(addrBytes, err) := Marshal newMiners in
  match err with
  | Some _ => (err, m)
  | None =>
      let '(err, ds) := ds_Put (da m) (NewKey actorKey) addrBytes in
      match err with
      | Some _ => (err, {| miners := miners m; da := ds |})
      | None => (None, {| miners := newMiners; da := ds |})
      end
  end.

Definition SetDefault (addr : Address) (m : MinerManager)
  : option error * MinerManager :=
  let '(err, ds) := ds_Put (da m) (NewKey defaultKey) (addr_Bytes addr) in
  (err, {| miners := miners m; da := ds |}).

Definition Default (m : MinerManager)
  : (Address * option error) * MinerManager :=
  let '((bytes, err), ds) := ds_Get (da m) (NewKey defaultKey) in
  let m := {| miners := miners m; da := ds |} in
  match err with
  | Some _ =>
      match miners m with
      | [] => ((Undef, Some ErrNoDefault), m)
      | first :: _ =>
          let '(err, m) := SetDefault (Addr first) m in
          match err with
          | Some _ => ((Undef, err), m)
          | None => ((Addr first, None), m)
          end
      end
  | None => (NewFromBytes bytes, m)
  end.

End Manager.

Arguments MinerManager Address : clear implicits.

(** ** What the loops compute *)

Section Views.
Context {Address : Type} `{!AddressCodec Address}.

Abbreviation Miner := (MinerInfo Address).

(** A record is registered under the address [a]. *)
Definition registered (a : Address) (r : Miner) : Prop :=
  addr_String (Addr r) = addr_String a.

(** The invariant of the data model: at most one record per address. *)
Definition unique_addrs (ms : list Miner) : Prop :=
  NoDup ((λ r, addr_String (Addr r)) <$> ms).

(** Membership in the removal set, by canonical string. *)
Definition in_removal_set (addrs : list Address) (r : Miner) : Prop :=
  Exists (λ a, addr_String a = addr_String (Addr r)) addrs.

(** What [findAddress] decides instead: every address of the removal set
    renders as the address of the record. *)
Definition equals_all (addrs : list Address) (r : Miner) : Prop :=
  Forall (λ a, addr_String a = addr_String (Addr r)) addrs.

#[global] Instance registered_dec a r : Decision (registered a r).
Proof. unfold registered. apply _. Defined.

#[global] Instance in_removal_set_dec addrs r : Decision (in_removal_set addrs r).
Proof. unfold in_removal_set. apply _. Defined.

#[global] Instance equals_all_dec addrs r : Decision (equals_all addrs r).
Proof. unfold equals_all. apply _. Defined.

(** One guarded assignment of [Set], as a relation between the incoming, the
    stored and the resulting value of a field. *)
Definition merged_field (incoming stored result : string) : Prop :=
  (incoming ≠ "" ∧ incoming ≠ stored → result = incoming) ∧
  (¬ (incoming ≠ "" ∧ incoming ≠ stored) → result = stored) ∧
  (incoming = "" → result = stored).

(** [r'] is the stored record [r] after the merge of the incoming [miner]:
    the four mutable fields are merged and the rest is the stored record's. *)
Definition merged (miner r r' : Miner) : Prop :=
  Addr r' = Addr r ∧ Id r' = Id r ∧ Name r' = Name r ∧
  merged_field (ListenAPI (Sealer miner)) (ListenAPI (Sealer r))
               (ListenAPI (Sealer r')) ∧
  merged_field (Token (Sealer miner)) (Token (Sealer r)) (Token (Sealer r')) ∧
  merged_field (ListenAPI (Wallet miner)) (ListenAPI (Wallet r))
               (ListenAPI (Wallet r')) ∧
  merged_field (Token (Wallet miner)) (Token (Wallet r)) (Token (Wallet r')).

End Views.

(** ** A concrete codec and store, for running the model *)

Module Fixture.

(** Addresses that are their own canonical string. *)
#[export] Instance plain_codec : AddressCodec string := {|
  addr_String := λ a, a;
  addr_Bytes := list_byte_of_string;
  NewFromBytes := λ b, (string_of_list_byte b, None);
  Undef := "<empty>"
|}.

Definition render (r : MinerInfo string) : string :=
  Addr r +:+ "," +:+ Id r +:+ "," +:+ Name r +:+ ","
  +:+ ListenAPI (Sealer r) +:+ "," +:+ Token (Sealer r) +:+ ","
  +:+ ListenAPI (Wallet r) +:+ "," +:+ Token (Wallet r).

(** A serializer that never fails; the empty list (Go's nil slice) is
    written as [null], the only text the reader accepts. *)
Definition plain_json : JSONCodec string := {|
  Marshal := λ ms,
    (list_byte_of_string
       (match ms with
        | [] => "null"
        | _ => "[" +:+ String.concat ";" (render <$> ms) +:+ "]"
        end), None);
  Unmarshal := λ b,
    if bool_decide (b = list_byte_of_string "null") then ([], None)
    else ([], Some (ErrJSON "invalid character"))
|}.

(** A serializer whose writer always fails. *)
Definition broken_json : JSONCodec string := {|
  Marshal := λ _, ([], Some (ErrJSON "unsupported value"));
  Unmarshal := λ _, ([], Some (ErrJSON "invalid character"))
|}.

Definition rec (a : string) (sealer_token : string) : MinerInfo string :=
  {| Addr := a; Id := ""; Name := "";
     Sealer := {| ListenAPI := "/ip4/127.0.0.1/tcp/2345"; Token := sealer_token |};
     Wallet := {| ListenAPI := ""; Token := "" |} |}.

Definition A : MinerInfo string := rec "f01000" "T1".
Definition B : MinerInfo string := rec "f01001" "T1".
Definition C : MinerInfo string := rec "f01002" "T1".

(** A store that works. *)
Definition sound (content : gmap string bytes) : MetadataDS :=
  {| cells := content; script := []; writes := [] |}.

(** A store whose next calls behave as scripted. *)
Definition flaky (content : gmap string bytes) (sc : list (option error)) : MetadataDS :=
  {| cells := content; script := sc; writes := [] |}.

Definition disk_full : error := ErrStore "no space left on device".

Definition timeout : error := ErrStore "context deadline exceeded".

Definition registry (ms : list (MinerInfo string)) (ds : MetadataDS)
  : MinerManager string :=
  {| miners := ms; da := ds |}.

(** An incoming record for [B]: other labels, no sealer endpoint, a new
    sealer token, no wallet. *)
Definition update_B : MinerInfo string :=
  {| Addr := "f01001"; Id := "renamed"; Name := "second";
     Sealer := {| ListenAPI := ""; Token := "T2" |};
     Wallet := {| ListenAPI := ""; Token := "" |} |}.

(** The same update under other labels. *)
Definition update_B' : MinerInfo string :=
  {| Addr := "f01001"; Id := ""; Name := "";
     Sealer := {| ListenAPI := ""; Token := "T2" |};
     Wallet := {| ListenAPI := ""; Token := "" |} |}.

Definition null : bytes := list_byte_of_string "null".

End Fixture.

(** ** The persisted mirror *)

Section Mirror.
Context {Address : Type} `{!AddressCodec Address} `{!JSONCodec Address}.

(** The store holds, under the key of the record list, the serialisation of
    the list in memory. *)
Definition in_sync (m : MinerManager Address) : Prop :=
  ∃ b, Marshal (miners m) = (b, None) ∧
       cells (da m) !! NewKey actorKey = Some b.

End Mirror.

(** ** The command line (cmd/address.go) *)

(** [abi.RegisteredSealProof] is an int64 and [abi.SectorSize] a uint64.  The
    five proof types that the switch of [isSupportedSectorSize] names are
    constants of go-state-types, which is not among the sources: they are
    parameters here. *)
Class SealProofs := {
  RegisteredSealProof_StackedDrg2KiBV1 : Z;
  RegisteredSealProof_StackedDrg8MiBV1 : Z;
  RegisteredSealProof_StackedDrg512MiBV1 : Z;
  RegisteredSealProof_StackedDrg32GiBV1 : Z;
  RegisteredSealProof_StackedDrg64GiBV1 : Z
}.

(** The constants of a Go switch are pairwise different. *)
Definition distinct_proofs `{!SealProofs} : Prop :=
  NoDup [RegisteredSealProof_StackedDrg2KiBV1;
         RegisteredSealProof_StackedDrg8MiBV1;
         RegisteredSealProof_StackedDrg512MiBV1;
         RegisteredSealProof_StackedDrg32GiBV1;
         RegisteredSealProof_StackedDrg64GiBV1].

(** [for spf := range miner0.SupportedProofTypes]: [spfs] lists the keys of
    the map in the order in which this run of the loop visits them. *)
Fixpoint isSupportedSectorSize `{!SealProofs} (spfs : list Z) (ssize : Z) : bool :=
  match spfs with
  | [] => false
  | spf :: spfs =>
      if (spf =? RegisteredSealProof_StackedDrg2KiBV1)%Z then
        if (ssize =? 2048)%Z then true else isSupportedSectorSize spfs ssize
      else if (spf =? RegisteredSealProof_StackedDrg8MiBV1)%Z then
        if (ssize =? Z.shiftl 8 20)%Z then true else isSupportedSectorSize spfs ssize
      else if (spf =? RegisteredSealProof_StackedDrg512MiBV1)%Z then
        if (ssize =? Z.shiftl 512 20)%Z then true else isSupportedSectorSize spfs ssize
      else if (spf =? RegisteredSealProof_StackedDrg32GiBV1)%Z then
        if (ssize =? Z.shiftl 32 30)%Z then true else isSupportedSectorSize spfs ssize
      else if (spf =? RegisteredSealProof_StackedDrg64GiBV1)%Z then
        if (ssize =? Z.shiftl 64 30)%Z then true else isSupportedSectorSize spfs ssize
      else isSupportedSectorSize spfs ssize
  end.

(** [address.NewFromString] *)
Class AddressParser (Address : Type) := {
  NewFromString : string → Address * option error
}.

(** What a command returns: an error handed on as it is, or
    [xerrors.Errorf] of [parsing %d-th miner: %w]. *)
Inductive cmd_error : Type :=
| Passed (e : error)
| ParsingMiner (i : nat) (e : error).

(** The node that [lcli.GetMinerAPI] reaches: whether the connection
    succeeds, and what the node answers to the calls of these commands. *)
Record MinerAPI (Address : Type) : Type := {
  dial : option error;
  AddAddress : MinerInfo Address → option error;
  Start : list Address → option error;
  Stop : list Address → option error
}.

Arguments dial {Address} _.
Arguments AddAddress {Address} _ _.
Arguments Start {Address} _ _.
Arguments Stop {Address} _ _.

(** What a command does, in order: the connection, the calls to the node,
    the lines printed, the deferred [closer()]. *)
Inductive event (Address : Type) : Type :=
| Connect
| CallAddAddress (mi : MinerInfo Address)
| CallStart (addrs : list Address)
| CallStop (addrs : list Address)
| Println (line : string)
| Close.

Arguments Connect {Address}.
Arguments CallAddAddress {Address} _.
Arguments CallStart {Address} _.
Arguments CallStop {Address} _.
Arguments Println {Address} _.
Arguments Close {Address}.

Section Commands.
Context {Address : Type} `{!AddressParser Address}.

(** [for i, s := range cctx.Args().Slice()] of the state, start and stop
    commands: [i] is the index of the head of [args], [addrs] the slice built
    so far.  A failure leaves the command at once. *)
Fixpoint parse_loop (i : nat) (args : list string) (addrs : list Address)
  : list Address * option cmd_error :=
  match args with
  | [] => (addrs, None)
  | s :: args =>
      let '(minerAddr, err) := NewFromString s in
      match err with
      | Some e => (addrs, Some (ParsingMiner i e))
      | None => parse_loop (S i) args (addrs ++ [minerAddr])
      end
  end.


(** The action of [startMiningCmd]. *)
Definition startMiningCmd_Action (node : MinerAPI Address) (args : list string)
  : list (event Address) * option cmd_error :=
  match dial node with
  | Some e => ([Connect], Some (Passed e))
  | None =>
      let '(addrs, err) := parse_loop 0 args [] in
      match err with
      | Some _ => ([Connect; Close], err)
      | None =>
          match Start node addrs with
          | Some e => ([Connect; CallStart addrs; Close], Some (Passed e))
          | None =>
              ([Connect; CallStart addrs; Println "start mining success."; Close],
               None)
          end
      end
  end.

(** The action of [stopMiningCmd]. *)
Definition stopMiningCmd_Action (node : MinerAPI Address) (args : list string)
  : list (event Address) * option cmd_error :=
  match dial node with
  | Some e => ([Connect], Some (Passed e))
  | None =>
      let '(addrs, err) := parse_loop 0 args [] in
      match err with
      | Some _ => ([Connect; Close], err)
      | None =>
          match Stop node addrs with
          | Some e => ([Connect; CallStop addrs; Close], Some (Passed e))
          | None =>
              ([Connect; CallStop addrs; Println "stop mining success."; Close],
               None)
          end
      end
  end.

(** An argument that parses, and the address it parses to. *)
Definition parses (s : string) (a : Address) : Prop :=
  NewFromString s = (a, None).

End Commands.

(** ** More concrete values, for running the model *)

Module Bench.
Import Fixture.
Import Stdlib.Strings.Ascii.

(** The fields of a text between separators. *)
Fixpoint fields (sep : Ascii.ascii) (s : string) : list string :=
  match s with
  | EmptyString => [EmptyString]
  | String c s =>
      if Ascii.eqb c sep then EmptyString :: fields sep s
      else match fields sep s with
           | f :: fs => String c f :: fs
           | [] => [String c EmptyString]
           end
  end.

Definition parse_row (row : string) : option (MinerInfo string) :=
  match fields ","%char row with
  | [a; i; n; sl; st; wl; wt] =>
      Some {| Addr := a; Id := i; Name := n;
              Sealer := {| ListenAPI := sl; Token := st |};
              Wallet := {| ListenAPI := wl; Token := wt |} |}
  | _ => None
  end.

Definition parse_table (s : string) : option (list (MinerInfo string)) :=
  if bool_decide (s = "null") then Some []
  else
    let n := String.length s in
    if bool_decide (substring 0 1 s = "[") && bool_decide (substring (n - 1) 1 s = "]")
    then mapM parse_row (fields ";"%char (substring 1 (n - 2) s))
    else None.

(** The writer of [plain_json] with a reader for all it writes. *)
Definition table_json : JSONCodec string := {|
  Marshal := @Marshal _ plain_json;
  Unmarshal := λ b,
    match parse_table (string_of_list_byte b) with
    | Some ms => (ms, None)
    | None => ([], Some (ErrJSON "invalid character"))
    end
|}.

(** The numbers that go-state-types gives the five proof types. *)
Definition v1_proofs : SealProofs := {|
  RegisteredSealProof_StackedDrg2KiBV1 := 0;
  RegisteredSealProof_StackedDrg8MiBV1 := 1;
  RegisteredSealProof_StackedDrg512MiBV1 := 2;
  RegisteredSealProof_StackedDrg32GiBV1 := 3;
  RegisteredSealProof_StackedDrg64GiBV1 := 4
|}.

(** A parser that takes the texts starting with [f0]. *)
Definition plain_parser : AddressParser string := {|
  NewFromString := λ s,
    if bool_decide (substring 0 2 s = "f0") then (s, None)
    else ("<empty>", Some (ErrAddress "unknown address network"))
|}.

(** A node that accepts every call. *)
Definition willing : MinerAPI string :=
  {| dial := None; AddAddress := λ _, None;
     Start := λ _, None; Stop := λ _, None |}.

(** A node that cannot be reached. *)
Definition unreachable : MinerAPI string :=
  {| dial := Some (ErrStore "connection refused"); AddAddress := λ _, None;
     Start := λ _, None; Stop := λ _, None |}.

End Bench.

(** * Properties *)

(** ** The datastore *)

Section Store.
Implicit Types (ds : MetadataDS) (k : string) (v : bytes).

Lemma ds_Put_writes ds k v :
  writes (ds_Put ds k v).2 = writes ds ++ [(k, v)].
Proof. unfold ds_Put. by destruct (next_fault ds). Qed.

Lemma ds_Put_ok ds k v ds' :
  ds_Put ds k v = (None, ds') → cells ds' = <[k := v]> (cells ds).
Proof.
  unfold ds_Put. destruct (next_fault ds); intros Heq; by simplify_eq.
Qed.

Lemma ds_Put_failed ds k v e ds' :
  ds_Put ds k v = (Some e, ds') → cells ds' = cells ds.
Proof.
  unfold ds_Put. destruct (next_fault ds); intros Heq; by simplify_eq.
Qed.

Lemma ds_Get_keeps ds k :
  cells (ds_Get ds k).2 = cells ds ∧ writes (ds_Get ds k).2 = writes ds.
Proof.
  unfold ds_Get. destruct (next_fault ds); [done|].
  by destruct (cells ds !! k).
Qed.

Lemma ds_Get_found ds k v :
  next_fault ds = None → cells ds !! k = Some v → (ds_Get ds k).1 = (v, None).
Proof. unfold ds_Get. by intros -> ->. Qed.

Lemma ds_Get_absent ds k :
  next_fault ds = None → cells ds !! k = None →
  (ds_Get ds k).1 = ([], Some ErrNotFound).
Proof. unfold ds_Get. by intros -> ->. Qed.

Lemma ds_Get_after_Put ds k v ds' :
  ds_Put ds k v = (None, ds') → next_fault ds' = None →
  (ds_Get ds' k).1 = (v, None).
Proof.
  intros Hput Hok. apply ds_Get_found; [done|].
  rewrite (ds_Put_ok _ _ _ _ Hput). apply lookup_insert_eq.
Qed.

End Store.

(** ** The loops *)

(** Case analysis on the serializer and then on the store write, the two
    calls every mutation ends with; the serializer's error case is closed. *)
Ltac outcomes :=
  destruct (Marshal _) as [? [?|]]; [done|];
  destruct (ds_Put _ _ _) as [[?|] ?].

Section Loops.
Context {Address : Type} `{!AddressCodec Address} `{!JSONCodec Address}.
Implicit Types (m : MinerManager Address) (r miner cur : MinerInfo Address).
Implicit Types (ms pre post : list (MinerInfo Address)).
Implicit Types (a addr : Address) (addrs : list Address).

Lemma same_addr_true a b : same_addr a b = true ↔ addr_String a = addr_String b.
Proof. unfold same_addr. apply bool_decide_eq_true. Qed.

Lemma same_addr_false a b : same_addr a b = false ↔ addr_String a ≠ addr_String b.
Proof. unfold same_addr. apply bool_decide_eq_false. Qed.

Lemma Has_loop_true ms addr :
  Has_loop ms addr = true ↔ ∃ r, r ∈ ms ∧ registered addr r.
Proof.
  induction ms as [|r ms IH]; simpl.
  - split; [done|]. intros (r & Hr & _). by apply elem_of_nil in Hr.
  - destruct (same_addr (Addr r) addr) eqn:E.
    + split; [|done]. intros _. exists r. split; [left|].
      by apply same_addr_true.
    + rewrite IH. apply same_addr_false in E.
      split; intros (r' & Hin & Hr').
      * exists r'. split; [by right|done].
      * apply elem_of_cons in Hin as [->|Hin]; [done|]. by exists r'.
Qed.

Lemma Has_loop_false ms addr :
  Has_loop ms addr = false ↔ Forall (λ r, ¬ registered addr r) ms.
Proof.
  rewrite <- not_true_iff_false, Has_loop_true, Forall_forall.
  split.
  - intros Hno r Hin Hr. apply Hno. by exists r.
  - intros Hall (r & Hin & Hr). by apply (Hall r).
Qed.

(** A miss of the range loop of [Set]: nothing happens. *)
Lemma Set_loop_miss miner k rest m :
  Forall (λ r, ¬ registered (Addr miner) r) rest →
  Set_loop miner k rest m = (None, m).
Proof.
  revert k. induction rest as [|r rest IH]; intros k Hall; [done|].
  apply Forall_cons in Hall as [Hr Hall]. simpl.
  apply same_addr_false in Hr. rewrite Hr. by apply IH.
Qed.

(** A hit: the loop runs the body once, at the first matching index. *)
Lemma Set_loop_hit miner k pre cur post m :
  Forall (λ r, ¬ registered (Addr miner) r) pre →
  registered (Addr miner) cur →
  Set_loop miner k (pre ++ cur :: post) m = Set_at miner (k + length pre) m.
Proof.
  revert k. induction pre as [|r pre IH]; intros k Hall Hcur; simpl.
  - apply same_addr_true in Hcur. rewrite Hcur. by rewrite Nat.add_0_r.
  - apply Forall_cons in Hall as [Hr Hall].
    apply same_addr_false in Hr. rewrite Hr.
    rewrite IH by done. f_equal. lia.
Qed.

Lemma alter_middle (f : MinerInfo Address → MinerInfo Address) pre cur post :
  alter f (length pre) (pre ++ cur :: post) = pre ++ f cur :: post.
Proof. rewrite alter_app_r_alt by lia. by rewrite Nat.sub_diag. Qed.

Lemma Set_hit miner pre cur post m :
  miners m = pre ++ cur :: post →
  Forall (λ r, ¬ registered (Addr miner) r) pre →
  registered (Addr miner) cur →
  Set_ miner m = Set_at miner (length pre) m ∧
  alter (merge miner) (length pre) (miners m) = pre ++ merge miner cur :: post.
Proof.
  intros Hms Hpre Hcur. unfold Set_. rewrite Hms.
  split; [by rewrite Set_loop_hit | apply alter_middle].
Qed.

(** [Set_at] always leaves the merged list in memory, whatever the
    serializer and the store answer. *)
Lemma Set_at_miners miner k m :
  miners (Set_at miner k m).2 = alter (merge miner) k (miners m).
Proof.
  unfold Set_at. simpl. by outcomes.
Qed.

Lemma findAddress_false addr addrs :
  findAddress addr addrs = false ↔
  Forall (λ a, addr_String a = addr_String addr) addrs.
Proof.
  induction addrs as [|a addrs IH]; simpl.
  - split; [constructor|done].
  - rewrite Forall_cons. destruct (same_addr a addr) eqn:E; simpl.
    + apply same_addr_true in E. rewrite IH. tauto.
    + apply same_addr_false in E. split; [done|]. by intros [? _].
Qed.

Lemma Remove_loop_filter addrs ms acc :
  Remove_loop addrs ms acc = acc ++ filter (equals_all addrs) ms.
Proof.
  revert acc. induction ms as [|r ms IH]; intros acc; simpl.
  - by rewrite app_nil_r.
  - destruct (findAddress (Addr r) addrs) eqn:E; simpl.
    + rewrite IH, filter_cons_False; [done|].
      intros Hall. apply findAddress_false in Hall. congruence.
    + apply findAddress_false in E.
      rewrite IH, filter_cons_True by done. by rewrite <- app_assoc.
Qed.

Lemma equals_all_nil r : equals_all [] r.
Proof. constructor. Qed.

Lemma equals_all_singleton a r : equals_all [a] r ↔ registered a r.
Proof.
  unfold equals_all, registered. rewrite Forall_singleton. split; congruence.
Qed.

Lemma equals_all_two a1 a2 addrs r :
  a1 ∈ addrs → a2 ∈ addrs → addr_String a1 ≠ addr_String a2 →
  ¬ equals_all addrs r.
Proof.
  intros H1 H2 Hne Hall. unfold equals_all in Hall.
  rewrite Forall_forall in Hall.
  apply Hne. by rewrite (Hall _ H1), (Hall _ H2).
Qed.

End Loops.

(** ** The merge of [Set] *)

Section Merge.
Context {Address : Type} `{!AddressCodec Address} `{!JSONCodec Address}.
Implicit Types (m : MinerManager Address) (r miner cur : MinerInfo Address).

Lemma overrides_true incoming current :
  overrides incoming current = true ↔ incoming ≠ "" ∧ incoming ≠ current.
Proof.
  unfold overrides. rewrite andb_true_iff, !bool_decide_eq_true. done.
Qed.

Lemma merged_field_intro incoming stored :
  merged_field incoming stored
    (if overrides incoming stored then incoming else stored).
Proof.
  unfold merged_field. destruct (overrides incoming stored) eqn:E.
  - apply overrides_true in E. destruct E as [E1 E2].
    split_and!; [done | intros Hn; by destruct Hn | intros ->; by destruct E1].
  - assert (¬ (incoming ≠ "" ∧ incoming ≠ stored)) as Hn.
    { rewrite <- overrides_true. congruence. }
    split_and!; [intros H; by destruct Hn | done | done].
Qed.

(** [merge] field by field. *)
Lemma merge_fields miner cur :
  Addr (merge miner cur) = Addr cur ∧
  Id (merge miner cur) = Id cur ∧
  Name (merge miner cur) = Name cur ∧
  ListenAPI (Sealer (merge miner cur)) =
    (if overrides (ListenAPI (Sealer miner)) (ListenAPI (Sealer cur))
     then ListenAPI (Sealer miner) else ListenAPI (Sealer cur)) ∧
  Token (Sealer (merge miner cur)) =
    (if overrides (Token (Sealer miner)) (Token (Sealer cur))
     then Token (Sealer miner) else Token (Sealer cur)) ∧
  ListenAPI (Wallet (merge miner cur)) =
    (if overrides (ListenAPI (Wallet miner)) (ListenAPI (Wallet cur))
     then ListenAPI (Wallet miner) else ListenAPI (Wallet cur)) ∧
  Token (Wallet (merge miner cur)) =
    (if overrides (Token (Wallet miner)) (Token (Wallet cur))
     then Token (Wallet miner) else Token (Wallet cur)).
Proof.
  unfold merge.
  destruct (overrides (ListenAPI (Sealer miner)) _); simpl;
  destruct (overrides (Token (Sealer miner)) _); simpl;
  destruct (overrides (ListenAPI (Wallet miner)) _); simpl;
  destruct (overrides (Token (Wallet miner)) _); simpl; done.
Qed.

(** [merge] reads nothing of the incoming record but its two descriptors. *)
Lemma merge_reads miner miner' cur :
  Sealer miner' = Sealer miner → Wallet miner' = Wallet miner →
  merge miner' cur = merge miner cur.
Proof. unfold merge. by intros -> ->. Qed.

Lemma Set_loop_reads miner miner' k rest m :
  addr_String (Addr miner') = addr_String (Addr miner) →
  Sealer miner' = Sealer miner → Wallet miner' = Wallet miner →
  Set_loop miner' k rest m = Set_loop miner k rest m.
Proof.
  intros Ha Hs Hw. revert k.
  induction rest as [|r rest IH]; intros k; [done|]. simpl.
  unfold same_addr. rewrite Ha.
  case_bool_decide; [|apply IH].
  unfold Set_at.
  by rewrite (list_alter_ext (merge miner') (merge miner) (miners m) (miners m))
    by (intros; by (apply merge_reads || done)).
Qed.

End Merge.

(** ** Update ([Set]) *)

Section Update.
Context {Address : Type} `{!AddressCodec Address} `{!JSONCodec Address}.
Implicit Types (m : MinerManager Address) (r miner cur : MinerInfo Address).
Implicit Types (pre post : list (MinerInfo Address)).

(** C2. When [Set] locates a record by address (the first one that matches),
    it leaves in memory the same list with that record merged: each of the
    four mutable fields takes the incoming value if and only if that value is
    non-empty and differs from the stored one, an empty incoming field keeps
    the stored value, and the address, id and name of the stored record stay
    as they were.  Nothing else of the incoming record is read: two incoming
    records with the same address string and the same two descriptors give
    the same result. *)
Theorem Set_merges_the_four_fields miner m pre cur post :
  miners m = pre ++ cur :: post →
  Forall (λ r, ¬ registered (Addr miner) r) pre →
  registered (Addr miner) cur →
  (∃ cur', miners (Set_ miner m).2 = pre ++ cur' :: post ∧
           merged miner cur cur') ∧
  (∀ miner',
      addr_String (Addr miner') = addr_String (Addr miner) →
      Sealer miner' = Sealer miner → Wallet miner' = Wallet miner →
      Set_ miner' m = Set_ miner m).
Proof.
  intros Hms Hpre Hcur. split.
  - exists (merge miner cur).
    destruct (Set_hit miner pre cur post m Hms Hpre Hcur) as [-> Halter].
    rewrite Set_at_miners, Halter.
    split; [done|]. unfold merged.
    destruct (merge_fields miner cur) as (-> & -> & -> & -> & -> & -> & ->).
    split_and!; try done; apply merged_field_intro.
  - intros miner' Ha Hs Hw. unfold Set_. by apply Set_loop_reads.
Qed.

(** C7. When no record has the address of the incoming one, [Set] returns no
    error and leaves the registry as it was: the same list in memory, the
    same store, and no write sent to the store. *)
Theorem Set_of_unknown_address_is_silent miner m :
  Forall (λ r, ¬ registered (Addr miner) r) (miners m) →
  Set_ miner m = (None, m) ∧
  miners (Set_ miner m).2 = miners m ∧
  writes (da (Set_ miner m).2) = writes (da m).
Proof.
  intros Hall. unfold Set_. by rewrite Set_loop_miss.
Qed.

(** C8. When [Set] has found and merged a record and the store then refuses
    the write, the error of the store is returned and the list in memory is
    the merged one: the merge is not undone, while the content of the store
    is the old one. *)
Theorem Set_keeps_merge_when_write_fails miner m pre cur post b e ds :
  miners m = pre ++ cur :: post →
  Forall (λ r, ¬ registered (Addr miner) r) pre →
  registered (Addr miner) cur →
  Marshal (pre ++ merge miner cur :: post) = (b, None) →
  ds_Put (da m) (NewKey actorKey) b = (Some e, ds) →
  Set_ miner m = (Some e, {| miners := pre ++ merge miner cur :: post; da := ds |}) ∧
  cells ds = cells (da m) ∧
  (merge miner cur ≠ cur → miners (Set_ miner m).2 ≠ miners m).
Proof.
  intros Hms Hpre Hcur Hjson Hput.
  destruct (Set_hit miner pre cur post m Hms Hpre Hcur) as [Hset Halter].
  assert (Set_ miner m =
          (Some e, {| miners := pre ++ merge miner cur :: post; da := ds |})) as Hres.
  { rewrite Hset. unfold Set_at. simpl. rewrite Halter, Hjson, Hput. done. }
  split_and!; [done | by eapply ds_Put_failed |].
  intros Hne. rewrite Hres, Hms. simpl. intros Heq.
  apply app_inv_head in Heq. congruence.
Qed.

End Update.

(** ** Add ([Put]) *)

Section Add.
Context {Address : Type} `{!AddressCodec Address} `{!JSONCodec Address}.
Implicit Types (m : MinerManager Address) (r miner : MinerInfo Address).
Implicit Types (ms : list (MinerInfo Address)).

Lemma filter_registered_none a ms :
  Forall (λ r, ¬ registered a r) ms → filter (registered a) ms = [].
Proof.
  induction 1 as [|r ms Hr _ IH]; [done|].
  by rewrite filter_cons_False.
Qed.

Lemma unique_addrs_one a r ms :
  unique_addrs ms → r ∈ ms → registered a r →
  length (filter (registered a) ms) = 1.
Proof.
  unfold unique_addrs. induction ms as [|x ms IH]; intros Hnd Hin Hr.
  - by apply elem_of_nil in Hin.
  - rewrite fmap_cons in Hnd. apply NoDup_cons in Hnd as [Hx Hnd].
    apply elem_of_cons in Hin as [<-|Hin].
    + rewrite filter_cons_True by done.
      rewrite filter_registered_none; [done|].
      apply Forall_forall. intros y Hy Hyr. apply Hx.
      apply list_elem_of_fmap. exists y. split; [|done].
      unfold registered in *. congruence.
    + rewrite filter_cons_False; [by apply IH|].
      intros Hxr. apply Hx. apply list_elem_of_fmap. exists r. split; [|done].
      unfold registered in *. congruence.
Qed.

Lemma Put_present miner m :
  (∃ r, r ∈ miners m ∧ registered (Addr miner) r) → Put miner m = (None, m).
Proof.
  intros Hex. apply Has_loop_true in Hex. unfold Put, Has. by rewrite Hex.
Qed.

(** The three ways out of [Put] for an address that is not registered. *)
Lemma Put_fresh miner m :
  Forall (λ r, ¬ registered (Addr miner) r) (miners m) →
  Put miner m =
    let new := miners m ++ [miner] in
    match Marshal new with
    | (_, Some e) => (Some e, m)
    | (b, None) =>
        match ds_Put (da m) (NewKey actorKey) b with
        | (Some e, ds) => (Some e, {| miners := miners m; da := ds |})
        | (None, ds) => (None, {| miners := new; da := ds |})
        end
    end.
Proof.
  intros Hall. apply Has_loop_false in Hall. unfold Put, Has. rewrite Hall.
  simpl. by outcomes.
Qed.

(** C3. For a record whose address is not registered yet: whenever [Put]
    returns an error the list in memory is the one from before the call, and
    whenever it returns no error the list is the old one with the new record
    at its end.  An error of the serializer is returned as it is, with the
    whole registry untouched; an error of the store write is returned as it
    is. *)
Theorem Put_applies_only_after_the_write miner m :
  Forall (λ r, ¬ registered (Addr miner) r) (miners m) →
  ((Put miner m).1 ≠ None → miners (Put miner m).2 = miners m) ∧
  ((Put miner m).1 = None → miners (Put miner m).2 = miners m ++ [miner]) ∧
  (∀ b e, Marshal (miners m ++ [miner]) = (b, Some e) →
          Put miner m = (Some e, m)) ∧
  (∀ b e ds, Marshal (miners m ++ [miner]) = (b, None) →
             ds_Put (da m) (NewKey actorKey) b = (Some e, ds) →
             Put miner m = (Some e, {| miners := miners m; da := ds |})) ∧
  (∀ b ds, Marshal (miners m ++ [miner]) = (b, None) →
           ds_Put (da m) (NewKey actorKey) b = (None, ds) →
           Put miner m = (None, {| miners := miners m ++ [miner]; da := ds |})).
Proof.
  intros Hall. rewrite (Put_fresh _ _ Hall). simpl.
  split_and!.
  - by outcomes.
  - by outcomes.
  - by intros b e ->.
  - by intros b e ds -> ->.
  - by intros b ds -> ->.
Qed.

(** C4. [Put] of a record whose address is already registered returns no
    error and changes nothing.  Hence, in a registry with at most one record
    per address, after a first [Put] that returned no error a second [Put] of
    the same record returns no error, leaves exactly one record with that
    address, sends no write to the store and leaves its content as it was. *)
Theorem Put_is_idempotent miner m :
  ((∃ r, r ∈ miners m ∧ registered (Addr miner) r) → Put miner m = (None, m)) ∧
  (∀ m1, unique_addrs (miners m) → Put miner m = (None, m1) →
         Put miner m1 = (None, m1) ∧
         length (filter (registered (Addr miner)) (miners m1)) = 1 ∧
         writes (da (Put miner m1).2) = writes (da m1) ∧
         cells (da (Put miner m1).2) = cells (da m1)).
Proof.
  split; [apply Put_present|].
  intros m1 Huniq Hfirst.
  assert (∃ r, r ∈ miners m1 ∧ registered (Addr miner) r) as Hex1.
  { destruct (Has m (Addr miner)) eqn:Hhas.
    - unfold Has in Hhas. apply Has_loop_true in Hhas.
      rewrite (Put_present _ _ Hhas) in Hfirst. by simplify_eq.
    - unfold Has in Hhas. apply Has_loop_false in Hhas.
      rewrite (Put_fresh _ _ Hhas) in Hfirst. simpl in Hfirst.
      outcomes; [done|]. simplify_eq. simpl.
      exists miner. split; [|done]. apply elem_of_app. right. by left. }
  assert (length (filter (registered (Addr miner)) (miners m1)) = 1) as Hone.
  { destruct (Has m (Addr miner)) eqn:Hhas.
    - unfold Has in Hhas. apply Has_loop_true in Hhas.
      rewrite (Put_present _ _ Hhas) in Hfirst. simplify_eq.
      destruct Hhas as (r & Hin & Hr). by eapply unique_addrs_one.
    - unfold Has in Hhas. apply Has_loop_false in Hhas.
      rewrite (Put_fresh _ _ Hhas) in Hfirst. simpl in Hfirst.
      outcomes; [done|]. simplify_eq. simpl.
      rewrite filter_app, filter_registered_none by done.
      by rewrite filter_cons_True. }
  rewrite (Put_present _ _ Hex1). done.
Qed.

(** [Put] keeps the invariant of the data model. *)
Lemma Put_unique_addrs miner m :
  unique_addrs (miners m) → unique_addrs (miners (Put miner m).2).
Proof.
  intros Huniq. destruct (Has m (Addr miner)) eqn:Hhas; unfold Has in Hhas.
  - apply Has_loop_true in Hhas. by rewrite (Put_present _ _ Hhas).
  - apply Has_loop_false in Hhas. rewrite (Put_fresh _ _ Hhas). simpl.
    outcomes; [done|]. simpl.
    unfold unique_addrs in *. rewrite fmap_app. apply NoDup_app.
    split_and!; [done| |apply NoDup_singleton].
    intros s Hs Hs'. apply list_elem_of_fmap in Hs as (r & -> & Hr).
    apply list_elem_of_singleton in Hs'.
    rewrite Forall_forall in Hhas. by apply (Hhas r Hr).
Qed.

End Add.

(** ** Remove *)

Section Removal.
Context {Address : Type} `{!AddressCodec Address} `{!JSONCodec Address}.
Implicit Types (m : MinerManager Address) (r : MinerInfo Address).
Implicit Types (a : Address) (addrs : list Address).

(** [Remove] once the survivors are serialised and written. *)
Lemma Remove_written addrs m b ds :
  Marshal (filter (equals_all addrs) (miners m)) = (b, None) →
  ds_Put (da m) (NewKey actorKey) b = (None, ds) →
  Remove addrs m =
    (None, {| miners := filter (equals_all addrs) (miners m); da := ds |}).
Proof.
  intros Hjson Hput. unfold Remove.
  rewrite Remove_loop_filter. simpl. by rewrite Hjson, Hput.
Qed.

Lemma filter_equals_all_nil (ms : list (MinerInfo Address)) :
  filter (equals_all (@nil Address)) ms = ms.
Proof.
  induction ms as [|r ms IH]; [done|].
  rewrite filter_cons_True by apply equals_all_nil. by rewrite IH.
Qed.

Lemma filter_equals_all_two a1 a2 addrs (ms : list (MinerInfo Address)) :
  a1 ∈ addrs → a2 ∈ addrs → addr_String a1 ≠ addr_String a2 →
  filter (equals_all addrs) ms = [].
Proof.
  intros H1 H2 Hne. induction ms as [|r ms IH]; [done|].
  rewrite filter_cons_False; [done|]. by apply (equals_all_two a1 a2).
Qed.

(** C9. As written, [Remove] keeps the records whose address renders like
    every address of the removal set, in their order, and once they are
    serialised and written they are the list in memory.  So an empty removal
    set keeps every record; a removal set of one address keeps the records
    of that address and no other; and a removal set with two addresses that
    render differently keeps nothing: when the write goes through the list in
    memory is empty and the stored list is the serialised empty list. *)
Theorem Remove_keeps_what_equals_all addrs m :
  (∀ b ds,
      Marshal (filter (equals_all addrs) (miners m)) = (b, None) →
      ds_Put (da m) (NewKey actorKey) b = (None, ds) →
      Remove addrs m =
        (None, {| miners := filter (equals_all addrs) (miners m); da := ds |})) ∧
  (addrs = [] → filter (equals_all addrs) (miners m) = miners m) ∧
  (∀ a, addrs = [a] →
        filter (equals_all addrs) (miners m) = filter (registered a) (miners m)) ∧
  (∀ a1 a2, a1 ∈ addrs → a2 ∈ addrs → addr_String a1 ≠ addr_String a2 →
      filter (equals_all addrs) (miners m) = [] ∧
      ∀ b ds,
        Marshal (@nil (MinerInfo Address)) = (b, None) →
        ds_Put (da m) (NewKey actorKey) b = (None, ds) →
        Remove addrs m = (None, {| miners := []; da := ds |}) ∧
        cells ds !! NewKey actorKey = Some b).
Proof.
  split_and!.
  - apply Remove_written.
  - intros ->. apply filter_equals_all_nil.
  - intros a ->. apply list_filter_iff. intros r. apply equals_all_singleton.
  - intros a1 a2 H1 H2 Hne.
    pose proof (filter_equals_all_two a1 a2 addrs (miners m) H1 H2 Hne) as Hnone.
    split; [done|]. intros b ds Hjson Hput. split.
    + pose proof (Remove_written addrs m b ds) as Hrun.
      rewrite Hnone in Hrun. by apply Hrun.
    + rewrite (ds_Put_ok _ _ _ _ Hput). apply lookup_insert_eq.
Qed.

End Removal.

(** ** The default miner *)

Section DefaultMiner.
Context {Address : Type} `{!AddressCodec Address} `{!JSONCodec Address}.
Implicit Types (m : MinerManager Address) (first : MinerInfo Address).

(** [Default] on the path taken when the get returned an error. *)
Lemma Default_fallback m b e ds :
  ds_Get (da m) (NewKey defaultKey) = ((b, Some e), ds) →
  Default m =
    match miners m with
    | [] => ((Undef, Some ErrNoDefault), {| miners := miners m; da := ds |})
    | first :: _ =>
        match ds_Put ds (NewKey defaultKey) (addr_Bytes (Addr first)) with
        | (Some e', ds') => ((Undef, Some e'), {| miners := miners m; da := ds' |})
        | (None, ds') => ((Addr first, None), {| miners := miners m; da := ds' |})
        end
    end.
Proof.
  intros Hget. unfold Default. rewrite Hget. simpl.
  destruct (miners m) as [|first rest]; [done|].
  unfold SetDefault. simpl. by destruct (ds_Put _ _ _) as [[e'|] ds'].
Qed.

Lemma ds_Get_result ds k :
  ds_Get ds k = ((ds_Get ds k).1, (ds_Get ds k).2).
Proof. by destruct (ds_Get ds k). Qed.

(** C5. [Default] reads the default key.  If the store holds bytes under it,
    the decoded address is returned and neither the list nor the content of
    the store changes, and no write is sent.  If the key is absent and the
    registry is empty the result is [ErrNoDefault].  If the key is absent and
    the registry is not empty, the address of the first record is written
    under the default key, and when that write goes through the address is
    returned and the store holds its bytes under the default key. *)
Theorem Default_resolves m :
  next_fault (da m) = None →
  (∀ b, cells (da m) !! NewKey defaultKey = Some b →
        (Default m).1 = NewFromBytes b ∧
        miners (Default m).2 = miners m ∧
        cells (da (Default m).2) = cells (da m) ∧
        writes (da (Default m).2) = writes (da m)) ∧
  (cells (da m) !! NewKey defaultKey = None → miners m = [] →
        (Default m).1 = (Undef, Some ErrNoDefault) ∧
        miners (Default m).2 = [] ∧
        cells (da (Default m).2) = cells (da m) ∧
        writes (da (Default m).2) = writes (da m)) ∧
  (∀ first rest,
        cells (da m) !! NewKey defaultKey = None → miners m = first :: rest →
        writes (da (Default m).2) =
          writes (da m) ++ [(NewKey defaultKey, addr_Bytes (Addr first))] ∧
        miners (Default m).2 = miners m ∧
        ((Default m).1.2 = None →
           (Default m).1 = (Addr first, None) ∧
           cells (da (Default m).2) !! NewKey defaultKey =
             Some (addr_Bytes (Addr first)))).
Proof.
  intros Hok. split_and!.
  - intros b Hcell.
    pose proof (ds_Get_found _ _ _ Hok Hcell) as Hget.
    pose proof (ds_Get_keeps (da m) (NewKey defaultKey)) as [Hc Hw].
    unfold Default. rewrite (ds_Get_result (da m)), Hget. simpl. done.
  - intros Hcell Hnil.
    pose proof (ds_Get_absent _ _ Hok Hcell) as Hget.
    pose proof (ds_Get_keeps (da m) (NewKey defaultKey)) as [Hc Hw].
    rewrite (Default_fallback m [] ErrNotFound (ds_Get (da m) (NewKey defaultKey)).2)
      by (by rewrite <- Hget, <- ds_Get_result).
    rewrite Hnil. simpl. done.
  - intros first rest Hcell Hms.
    pose proof (ds_Get_absent _ _ Hok Hcell) as Hget.
    pose proof (ds_Get_keeps (da m) (NewKey defaultKey)) as [Hc Hw].
    rewrite (Default_fallback m [] ErrNotFound (ds_Get (da m) (NewKey defaultKey)).2)
      by (by rewrite <- Hget, <- ds_Get_result).
    rewrite Hms.
    pose proof (ds_Put_writes (ds_Get (da m) (NewKey defaultKey)).2
                  (NewKey defaultKey) (addr_Bytes (Addr first))) as Hlog.
    destruct (ds_Put _ _ _) as [[e'|] ds'] eqn:Hput; simpl in *.
    + rewrite Hlog, Hw. done.
    + rewrite Hlog, Hw. split_and!; [done|done|]. intros _. split; [done|].
      rewrite (ds_Put_ok _ _ _ _ Hput). apply lookup_insert_eq.
Qed.

(** C10. Whatever error the get on the default key returns, [Default] goes
    on as if no default were set: [ErrNoDefault] for an empty registry, and
    otherwise the write of the first address, whose outcome alone decides the
    result.  The error of the get is not part of the result: two registries
    with the same list whose gets fail with different errors and leave the
    same store behind give the same result. *)
Theorem Default_ignores_the_get_error m b e ds :
  ds_Get (da m) (NewKey defaultKey) = ((b, Some e), ds) →
  (miners m = [] →
     Default m = ((Undef, Some ErrNoDefault), {| miners := []; da := ds |})) ∧
  (∀ first rest err ds',
     miners m = first :: rest →
     ds_Put ds (NewKey defaultKey) (addr_Bytes (Addr first)) = (err, ds') →
     Default m =
       ((match err with Some _ => Undef | None => Addr first end, err),
        {| miners := miners m; da := ds' |})) ∧
  (∀ m2 b2 e2,
     miners m2 = miners m →
     ds_Get (da m2) (NewKey defaultKey) = ((b2, Some e2), ds) →
     Default m2 = Default m).
Proof.
  intros Hget. rewrite (Default_fallback _ _ _ _ Hget). split_and!.
  - by intros ->.
  - intros first rest err ds' -> ->. by destruct err.
  - intros m2 b2 e2 Hms Hget2.
    by rewrite (Default_fallback _ _ _ _ Hget2), Hms.
Qed.

End DefaultMiner.

(** ** Construction *)

Section Construction.
Context {Address : Type} `{!AddressCodec Address} `{!JSONCodec Address}.

(** C6. [NewMinerManger] reads the key of the record list from a store that
    answers.  If the key is absent the result is a registry with an empty
    list and no error.  If the key holds bytes that the decoder rejects, the
    result is the decoder's error and no registry. *)
Theorem NewMinerManger_loads ds :
  next_fault ds = None →
  (cells ds !! NewKey actorKey = None →
     (NewMinerManger ds).1 =
       (Some {| miners := @nil (MinerInfo Address);
                da := (ds_Get ds (NewKey actorKey)).2 |}, None)) ∧
  (∀ b ms e,
     cells ds !! NewKey actorKey = Some b →
     Unmarshal b = (ms, Some e) →
     (NewMinerManger ds).1 = (@None (MinerManager Address), Some e)).
Proof.
  intros Hok. split.
  - intros Hcell. pose proof (ds_Get_absent _ _ Hok Hcell) as Hget.
    unfold NewMinerManger. rewrite (ds_Get_result ds), Hget. done.
  - intros b ms e Hcell Hjson.
    pose proof (ds_Get_found _ _ _ Hok Hcell) as Hget.
    unfold NewMinerManger. rewrite (ds_Get_result ds), Hget. simpl.
    by rewrite Hjson.
Qed.

End Construction.

(** ** Runs on the concrete codec and store *)

Section Runs.
Import Fixture.
#[local] Existing Instance plain_json.

(** C1. [Remove([A])] on the list [A, B, C]: the claim keeps the records
    whose address is not in the removal set, that is [B, C]; the code keeps
    [A] alone, in memory and in the store. *)
Theorem Remove_one_address_keeps_only_it :
  let m := registry [A; B; C] (sound ∅) in
  filter (λ r, ¬ in_removal_set [Addr A] r) (miners m) = [B; C] ∧
  (Remove [Addr A] m).1 = None ∧
  miners (Remove [Addr A] m).2 = [A] ∧
  cells (da (Remove [Addr A] m).2) !! NewKey actorKey = Some (Marshal [A]).1.
Proof. simpl. split_and!; by vm_compute. Qed.

Lemma Set_merges_the_four_fields_witness :
  let m := registry [A; B; C] (sound ∅) in
  (miners m = [A] ++ B :: [C] ∧
   Forall (λ r, ¬ registered (Addr update_B) r) [A] ∧
   registered (Addr update_B) B) ∧
  (∃ cur', miners (Set_ update_B m).2 = [A] ++ cur' :: [C] ∧
           merged update_B B cur') ∧
  Set_ update_B' m = Set_ update_B m.
Proof.
  simpl.
  assert (Forall (λ r, ¬ registered (Addr update_B) r) [A]) as Hpre
    by (repeat constructor; by vm_compute).
  assert (registered (Addr update_B) B) as Hcur by reflexivity.
  split; [by split_and!|].
  destruct (Set_merges_the_four_fields update_B
              (registry [A; B; C] (sound ∅)) [A] B [C] eq_refl Hpre Hcur)
    as [Hex Hany].
  split; [exact Hex|]. by apply Hany.
Defined.

Lemma Set_of_unknown_address_is_silent_witness :
  let m := registry [A; C] (sound ∅) in
  Forall (λ r, ¬ registered (Addr update_B) r) (miners m) ∧
  Set_ update_B m = (None, m).
Proof.
  simpl.
  assert (Forall (λ r, ¬ registered (Addr update_B) r) [A; C]) as Hall
    by (repeat constructor; by vm_compute).
  split; [exact Hall|].
  exact (proj1 (Set_of_unknown_address_is_silent update_B
                  (registry [A; C] (sound ∅)) Hall)).
Defined.

Lemma Set_keeps_merge_when_write_fails_witness :
  let m := registry [A; B; C] (flaky ∅ [Some disk_full]) in
  let b := (Marshal [A; merge update_B B; C]).1 in
  (miners m = [A] ++ B :: [C] ∧
   Forall (λ r, ¬ registered (Addr update_B) r) [A] ∧
   registered (Addr update_B) B ∧
   Marshal ([A] ++ merge update_B B :: [C]) = (b, None) ∧
   (ds_Put (da m) (NewKey actorKey) b).1 = Some disk_full) ∧
  (Set_ update_B m).1 = Some disk_full ∧
  (λ r, Token (Sealer r)) <$> miners (Set_ update_B m).2 !! 1 = Some "T2" ∧
  cells (da (Set_ update_B m).2) = ∅.
Proof.
  cbv zeta.
  assert (Forall (λ r, ¬ registered (Addr update_B) r) [A]) as Hpre
    by (repeat constructor; by vm_compute).
  assert (registered (Addr update_B) B) as Hcur by reflexivity.
  assert (Marshal ([A] ++ merge update_B B :: [C]) =
          ((Marshal [A; merge update_B B; C]).1, None)) as Hjson
    by (by vm_compute).
  assert (ds_Put (flaky ∅ [Some disk_full]) (NewKey actorKey)
            (Marshal [A; merge update_B B; C]).1 =
          (Some disk_full,
           (ds_Put (flaky ∅ [Some disk_full]) (NewKey actorKey)
              (Marshal [A; merge update_B B; C]).1).2)) as Hput
    by (by vm_compute).
  split; [by split_and!|].
  destruct (Set_keeps_merge_when_write_fails update_B
              (registry [A; B; C] (flaky ∅ [Some disk_full])) [A] B [C]
              _ _ _ eq_refl Hpre Hcur Hjson Hput)
    as (Hres & Hcells & _).
  rewrite Hres. split_and!; [done | by vm_compute | exact Hcells].
Defined.

Lemma Put_applies_only_after_the_write_witness :
  let m := registry [A] (sound ∅) in
  let m' := registry [A] (flaky ∅ [Some disk_full]) in
  Forall (λ r, ¬ registered (Addr B) r) [A] ∧
  ((Put B m).1 = None ∧ miners (Put B m).2 = [A; B]) ∧
  ((Put B m').1 = Some disk_full ∧ miners (Put B m').2 = [A]) ∧
  @Put _ _ broken_json B m = (Some (ErrJSON "unsupported value"), m).
Proof.
  cbv zeta.
  assert (Forall (λ r, ¬ registered (Addr B) r) [A]) as Hfresh
    by (repeat constructor; by vm_compute).
  split; [exact Hfresh|]. split_and!.
  - by vm_compute.
  - apply (Put_applies_only_after_the_write B (registry [A] (sound ∅)) Hfresh).
    by vm_compute.
  - by vm_compute.
  - apply (Put_applies_only_after_the_write B
             (registry [A] (flaky ∅ [Some disk_full])) Hfresh).
    by vm_compute.
  - destruct (@Put_applies_only_after_the_write _ _ broken_json B
                (registry [A] (sound ∅)) Hfresh) as (_ & _ & Hjson & _).
    by apply (Hjson []).
Defined.

Lemma Put_is_idempotent_witness :
  let m := registry [A] (sound ∅) in
  let m1 := (Put B m).2 in
  (unique_addrs (miners m) ∧ Put B m = (None, m1) ∧
   ∃ r, r ∈ miners m ∧ registered (Addr A) r) ∧
  Put A m = (None, m) ∧
  Put B m1 = (None, m1) ∧
  length (filter (registered (Addr B)) (miners m1)) = 1 ∧
  writes (da (Put B m1).2) = writes (da m1) ∧
  cells (da (Put B m1).2) = cells (da m1).
Proof.
  cbv zeta.
  assert (unique_addrs (miners (registry [A] (sound ∅)))) as Huniq
    by apply NoDup_singleton.
  assert (Put B (registry [A] (sound ∅)) =
          (None, (Put B (registry [A] (sound ∅))).2)) as Hfirst
    by (by vm_compute).
  assert (∃ r, r ∈ miners (registry [A] (sound ∅)) ∧ registered (Addr A) r)
    as Hex by (exists A; split; [left | reflexivity]).
  split; [by split_and!|].
  split.
  - exact (proj1 (Put_is_idempotent A (registry [A] (sound ∅))) Hex).
  - exact (proj2 (Put_is_idempotent B (registry [A] (sound ∅))) _ Huniq Hfirst).
Defined.

Lemma Remove_keeps_what_equals_all_witness :
  let m := registry [A; B; C] (sound ∅) in
  let stored (r : option error * MinerManager string) :=
    cells (da r.2) !! NewKey actorKey in
  (Addr A ∈ [Addr A; Addr B] ∧ Addr B ∈ [Addr A; Addr B] ∧
   addr_String (Addr A) ≠ addr_String (Addr B) ∧
   Marshal (@nil (MinerInfo string)) = (null, None) ∧
   (ds_Put (da m) (NewKey actorKey) null).1 = None) ∧
  filter (equals_all []) (miners m) = [A; B; C] ∧
  filter (equals_all [Addr A]) (miners m) = filter (registered (Addr A)) (miners m) ∧
  Remove [Addr A] m =
    (None, registry [A] (ds_Put (da m) (NewKey actorKey) (Marshal [A]).1).2) ∧
  miners (Remove [Addr A; Addr B] m).2 = [] ∧
  stored (Remove [Addr A; Addr B] m) = Some null.
Proof.
  cbv zeta.
  pose proof (Remove_keeps_what_equals_all [] (registry [A; B; C] (sound ∅)))
    as (_ & Hnil & _ & _).
  pose proof (Remove_keeps_what_equals_all [Addr A] (registry [A; B; C] (sound ∅)))
    as (Hrun & _ & Hone & _).
  pose proof (Remove_keeps_what_equals_all [Addr A; Addr B]
                (registry [A; B; C] (sound ∅)))
    as (_ & _ & _ & Htwo).
  assert (Addr A ∈ [Addr A; Addr B]) as HA by left.
  assert (Addr B ∈ [Addr A; Addr B]) as HB by (right; left).
  assert (addr_String (Addr A) ≠ addr_String (Addr B)) as Hne by (by vm_compute).
  assert (Marshal (@nil (MinerInfo string)) = (null, None)) as Hjson by reflexivity.
  assert (ds_Put (sound ∅) (NewKey actorKey) null =
          (None, (ds_Put (sound ∅) (NewKey actorKey) null).2)) as Hput
    by (by vm_compute).
  split; [by split_and!|].
  destruct (Htwo _ _ HA HB Hne) as [_ Hall].
  destruct (Hall _ _ Hjson Hput) as [Hres Hcell].
  split_and!.
  - by apply Hnil.
  - by apply (Hone (Addr A)).
  - apply (Hrun (Marshal [A]).1); by vm_compute.
  - by rewrite Hres.
  - rewrite Hres. exact Hcell.
Defined.

Lemma Default_resolves_witness :
  let set := registry [A; B] (sound {[NewKey defaultKey := addr_Bytes (Addr B)]}) in
  let none := registry [] (sound ∅) in
  let unset := registry [A; B] (sound ∅) in
  (next_fault (da set) = None ∧
   cells (da set) !! NewKey defaultKey = Some (addr_Bytes (Addr B)) ∧
   cells (da none) !! NewKey defaultKey = None ∧
   (Default unset).1.2 = None) ∧
  ((Default set).1 = NewFromBytes (addr_Bytes (Addr B)) ∧
   miners (Default set).2 = miners set ∧
   cells (da (Default set).2) = cells (da set) ∧
   writes (da (Default set).2) = writes (da set)) ∧
  (Default none).1 = (Undef, Some ErrNoDefault) ∧
  (Default unset).1 = (Addr A, None) ∧
  cells (da (Default unset).2) !! NewKey defaultKey = Some (addr_Bytes (Addr A)).
Proof.
  cbv zeta.
  pose proof (Default_resolves
                (registry [A; B] (sound {[NewKey defaultKey := addr_Bytes (Addr B)]}))
                eq_refl) as (Hset & _ & _).
  pose proof (Default_resolves (registry [] (sound ∅)) eq_refl) as (_ & Hnone & _).
  pose proof (Default_resolves (registry [A; B] (sound ∅)) eq_refl)
    as (_ & _ & Hunset).
  assert (cells (sound {[NewKey defaultKey := addr_Bytes (Addr B)]})
            !! NewKey defaultKey = Some (addr_Bytes (Addr B))) as Hcell
    by (by vm_compute).
  assert (cells (sound ∅) !! NewKey defaultKey = None) as Hempty
    by (by vm_compute).
  assert ((Default (registry [A; B] (sound ∅))).1.2 = None) as Hok
    by (by vm_compute).
  split; [by split_and!|].
  split; [exact (Hset _ Hcell)|].
  split; [exact (proj1 (Hnone Hempty eq_refl))|].
  destruct (Hunset A [B] Hempty eq_refl) as (_ & _ & Hres).
  exact (Hres Hok).
Defined.

Lemma Default_ignores_the_get_error_witness :
  let m := registry [A; B] (flaky ∅ [Some timeout]) in
  let m2 := registry [A; B] (flaky ∅ [Some disk_full]) in
  let none := registry [] (flaky ∅ [Some timeout]) in
  (ds_Get (da m) (NewKey defaultKey) = (([], Some timeout), sound ∅) ∧
   ds_Get (da m2) (NewKey defaultKey) = (([], Some disk_full), sound ∅)) ∧
  Default none = ((Undef, Some ErrNoDefault), registry [] (sound ∅)) ∧
  Default m =
    ((Addr A, None),
     registry [A; B] (ds_Put (sound ∅) (NewKey defaultKey) (addr_Bytes (Addr A))).2) ∧
  Default m2 = Default m.
Proof.
  cbv zeta.
  assert (ds_Get (flaky ∅ [Some timeout]) (NewKey defaultKey) =
          (([], Some timeout), sound ∅)) as Hget by reflexivity.
  assert (ds_Get (flaky ∅ [Some disk_full]) (NewKey defaultKey) =
          (([], Some disk_full), sound ∅)) as Hget2 by reflexivity.
  split; [by split_and!|]. split_and!.
  - exact (proj1 (Default_ignores_the_get_error
                    (registry [] (flaky ∅ [Some timeout])) _ _ _ Hget) eq_refl).
  - destruct (Default_ignores_the_get_error
                (registry [A; B] (flaky ∅ [Some timeout])) _ _ _ Hget)
      as (_ & Hrun & _).
    apply (Hrun A [B] None); [reflexivity | by vm_compute].
  - destruct (Default_ignores_the_get_error
                (registry [A; B] (flaky ∅ [Some timeout])) _ _ _ Hget)
      as (_ & _ & Hsame).
    exact (Hsame (registry [A; B] (flaky ∅ [Some disk_full])) _ _ eq_refl Hget2).
Defined.

Lemma NewMinerManger_loads_witness :
  let garbage := list_byte_of_string "{oops" in
  let bad := sound {[NewKey actorKey := garbage]} in
  (next_fault (sound ∅) = None ∧
   cells (sound ∅) !! NewKey actorKey = None ∧
   cells bad !! NewKey actorKey = Some garbage ∧
   Unmarshal garbage = ([], Some (ErrJSON "invalid character"))) ∧
  (NewMinerManger (sound ∅)).1 = (Some (registry [] (sound ∅)), None) ∧
  (NewMinerManger bad).1 =
    (@None (MinerManager string), Some (ErrJSON "invalid character")).
Proof.
  cbv zeta.
  assert (cells (sound ∅) !! NewKey actorKey = None) as Hempty by (by vm_compute).
  assert (cells (sound {[NewKey actorKey := list_byte_of_string "{oops"]})
            !! NewKey actorKey = Some (list_byte_of_string "{oops")) as Hcell
    by (by vm_compute).
  assert (Unmarshal (list_byte_of_string "{oops") =
          (@nil (MinerInfo string), Some (ErrJSON "invalid character"))) as Hjson
    by (by vm_compute).
  split; [by split_and!|]. split.
  - exact (proj1 (NewMinerManger_loads (sound ∅) eq_refl) Hempty).
  - exact (proj2 (NewMinerManger_loads
                    (sound {[NewKey actorKey := list_byte_of_string "{oops"]})
                    eq_refl) _ _ _ Hcell Hjson).
Defined.

End Runs.

(** * Further properties of the registry *)

(** ** Lookups ([Has], [Get], [Count]) *)

Section Lookups.
Context {Address : Type} `{!AddressCodec Address} `{!JSONCodec Address}.
Implicit Types (m : MinerManager Address) (r miner cur : MinerInfo Address).
Implicit Types (ms pre post : list (MinerInfo Address)).
Implicit Types (a addr : Address) (addrs : list Address).

(** The loop of [Get] is a search for the first registered record. *)
Lemma Get_loop_find k ms addr :
  Get_loop k ms addr = (λ p, k + p.1) <$> list_find (registered addr) ms.
Proof.
  revert k. induction ms as [|r ms IH]; intros k; [done|].
  cbn [Get_loop list_find]. unfold same_addr. fold (registered addr r).
  destruct (decide (registered addr r)) as [Hr|Hr].
  - rewrite bool_decide_eq_true_2 by done. simpl. f_equal. lia.
  - rewrite bool_decide_eq_false_2 by done. rewrite IH.
    destruct (list_find (registered addr) ms) as [[i x]|]; simpl; [|done].
    f_equal. lia.
Qed.

Lemma Get_find m addr :
  Get m addr = fst <$> list_find (registered addr) (miners m).
Proof.
  unfold Get. rewrite Get_loop_find.
  by destruct (list_find _ _) as [[i x]|].
Qed.

(** Both lookups read the records through their addresses only. *)
Lemma lookups_read_addresses ms ms' addr k :
  Addr <$> ms = Addr <$> ms' →
  Has_loop ms addr = Has_loop ms' addr ∧ Get_loop k ms addr = Get_loop k ms' addr.
Proof.
  revert ms' k. induction ms as [|r ms IH]; intros [|r' ms'] k Heq;
    try done.
  simpl in Heq. injection Heq as Hr Hms. simpl. rewrite Hr.
  destruct (same_addr (Addr r') addr); [done|]. by apply IH.
Qed.

(** Appending a record registered under another address changes no lookup. *)
Lemma lookups_skip_appended ms r addr k :
  ¬ registered addr r →
  Has_loop (ms ++ [r]) addr = Has_loop ms addr ∧
  Get_loop k (ms ++ [r]) addr = Get_loop k ms addr.
Proof.
  intros Hr. apply same_addr_false in Hr.
  revert k. induction ms as [|x ms IH]; intros k; simpl.
  - by rewrite Hr.
  - destruct (same_addr (Addr x) addr); [done|]. apply IH.
Qed.

(** The list [Put] leaves in memory: the old one, or, after a successful
    write for a fresh address, the old one with the record at its end. *)
Lemma Put_miners miner m :
  miners (Put miner m).2 = miners m ∨
  (Forall (λ r, ¬ registered (Addr miner) r) (miners m) ∧
   (Put miner m).1 = None ∧ miners (Put miner m).2 = miners m ++ [miner]).
Proof.
  destruct (Has m (Addr miner)) eqn:Hhas; unfold Has in Hhas.
  - apply Has_loop_true in Hhas. rewrite (Put_present _ _ Hhas). by left.
  - apply Has_loop_false in Hhas. rewrite (Put_fresh _ _ Hhas). simpl.
    destruct (Marshal _) as [b [e|]]; [by left|].
    destruct (ds_Put _ _ _) as [[e|] ds]; [by left|]. by right.
Qed.

Lemma Put_fresh_written miner m :
  Forall (λ r, ¬ registered (Addr miner) r) (miners m) →
  (Put miner m).1 = None →
  miners (Put miner m).2 = miners m ++ [miner] ∧
  ∃ b, Marshal (miners m ++ [miner]) = (b, None) ∧
       cells (da (Put miner m).2) = <[NewKey actorKey := b]> (cells (da m)).
Proof.
  intros Hfresh. rewrite (Put_fresh _ _ Hfresh). simpl.
  destruct (Marshal _) as [b [e|]]; [done|].
  destruct (ds_Put _ _ _) as [[e|] ds] eqn:Hput; [done|]. intros _.
  split; [done|]. exists b. split; [done|]. by eapply ds_Put_ok.
Qed.

(** X1. [Has] answers true exactly when some record of the list has an
    address that renders like the one asked for. *)
Theorem Has_iff_registered m addr :
  Has m addr = true ↔ ∃ r, r ∈ miners m ∧ registered addr r.
Proof. unfold Has. apply Has_loop_true. Qed.

(** X2. [Get] returns the index of the first record whose address renders
    like the one asked for, and returns nothing exactly when [Has] answers
    false. *)
Theorem Get_finds_the_first_match m addr :
  (∀ k, Get m addr = Some k ↔
        ∃ r, miners m !! k = Some r ∧ registered addr r ∧
             ∀ j r', miners m !! j = Some r' → j < k → ¬ registered addr r') ∧
  (Get m addr = None ↔ Has m addr = false).
Proof.
  rewrite Get_find. split.
  - intros k. split.
    + intros Hk. apply fmap_Some in Hk as ([i r] & Hfind & ->).
      apply list_find_Some in Hfind. by exists r.
    + intros (r & Hk & Hr & Hfirst).
      assert (list_find (registered addr) (miners m) = Some (k, r)) as ->; [|done].
      by apply list_find_Some.
  - rewrite fmap_None, list_find_None. unfold Has. by rewrite Has_loop_false.
Qed.

(** X3. After a [Put] that returned no error for an address that was not
    registered, the record is the last of the list: [Get] of its address
    returns the old [Count], the record at that index is the one put, [Has]
    answers true and [Count] has grown by one. *)
Theorem Put_then_Get miner m :
  Forall (λ r, ¬ registered (Addr miner) r) (miners m) →
  (Put miner m).1 = None →
  Get (Put miner m).2 (Addr miner) = Some (Count m) ∧
  miners (Put miner m).2 !! Count m = Some miner ∧
  Has (Put miner m).2 (Addr miner) = true ∧
  Count (Put miner m).2 = S (Count m).
Proof.
  intros Hfresh Hok.
  destruct (Put_fresh_written miner m Hfresh Hok) as [Hms _].
  unfold Count, Has. rewrite Get_find, Hms. split_and!.
  - assert (list_find (registered (Addr miner)) (miners m ++ [miner]) =
            Some (length (miners m), miner)) as ->; [|done].
    apply list_find_Some. split_and!.
    + by rewrite lookup_app_r, Nat.sub_diag by lia.
    + done.
    + intros j y Hj Hlt. rewrite lookup_app_l in Hj by done.
      rewrite Forall_forall in Hfresh. apply Hfresh.
      by eapply list_elem_of_lookup_2.
  - by rewrite lookup_app_r, Nat.sub_diag by lia.
  - apply Has_loop_true. exists miner. split; [|done].
    apply elem_of_app. right. by left.
  - rewrite length_app. simpl. lia.
Qed.

End Lookups.

(** ** What the mutations leave alone *)

Section Frames.
Context {Address : Type} `{!AddressCodec Address} `{!JSONCodec Address}.
Implicit Types (m : MinerManager Address) (r miner cur : MinerInfo Address).
Implicit Types (ms pre post : list (MinerInfo Address)).
Implicit Types (a addr : Address) (addrs : list Address).

(** A list either has no record registered under [a] or splits at the first
    one. *)
Lemma first_registered a ms :
  Forall (λ r, ¬ registered a r) ms ∨
  ∃ pre cur post, ms = pre ++ cur :: post ∧
                  Forall (λ r, ¬ registered a r) pre ∧ registered a cur.
Proof.
  induction ms as [|r ms IH]; [by left|].
  destruct (decide (registered a r)) as [Hr|Hr].
  - right. by exists [], r, ms.
  - destruct IH as [Hnone|(pre & cur & post & -> & Hpre & Hcur)].
    + left. by constructor.
    + right. exists (r :: pre), cur, post. split_and!; [done| |done].
      by constructor.
Qed.

(** The list [Set] leaves in memory, in every outcome. *)
Lemma Set_miners miner m :
  (Forall (λ r, ¬ registered (Addr miner) r) (miners m) ∧ Set_ miner m = (None, m)) ∨
  ∃ pre cur post,
    miners m = pre ++ cur :: post ∧
    Forall (λ r, ¬ registered (Addr miner) r) pre ∧ registered (Addr miner) cur ∧
    Set_ miner m = Set_at miner (length pre) m ∧
    miners (Set_ miner m).2 = pre ++ merge miner cur :: post.
Proof.
  destruct (first_registered (Addr miner) (miners m))
    as [Hnone|(pre & cur & post & Hms & Hpre & Hcur)].
  - left. split; [done|]. unfold Set_. by apply Set_loop_miss.
  - right. exists pre, cur, post.
    destruct (Set_hit miner pre cur post m Hms Hpre Hcur) as [Hset Halter].
    split_and!; try done. by rewrite Hset, Set_at_miners.
Qed.

Lemma merge_labels miner r :
  (Addr (merge miner r), Id (merge miner r), Name (merge miner r)) =
  (Addr r, Id r, Name r).
Proof. by destruct (merge_fields miner r) as (-> & -> & -> & _). Qed.

Lemma overrides_settled incoming stored :
  overrides incoming (if overrides incoming stored then incoming else stored) = false.
Proof.
  destruct (overrides incoming stored) eqn:E.
  - unfold overrides. rewrite (bool_decide_eq_false_2 (incoming ≠ incoming)) by auto.
    apply andb_false_r.
  - done.
Qed.

Lemma MinerInfo_ext r r' :
  Addr r = Addr r' → Id r = Id r' → Name r = Name r' →
  ListenAPI (Sealer r) = ListenAPI (Sealer r') →
  Token (Sealer r) = Token (Sealer r') →
  ListenAPI (Wallet r) = ListenAPI (Wallet r') →
  Token (Wallet r) = Token (Wallet r') →
  r = r'.
Proof.
  destruct r as [a i n [sl st] [wl wt]], r' as [a' i' n' [sl' st'] [wl' wt']].
  simpl. by intros -> -> -> -> -> -> ->.
Qed.

(** Merging the same incoming record again changes nothing. *)
Lemma merge_idempotent miner r :
  merge miner (merge miner r) = merge miner r.
Proof.
  destruct (merge_fields miner (merge miner r)) as (Ha & Hi & Hn & H1 & H2 & H3 & H4).
  destruct (merge_fields miner r) as (_ & _ & _ & G1 & G2 & G3 & G4).
  apply MinerInfo_ext; try done.
  - by rewrite H1, G1, overrides_settled.
  - by rewrite H2, G2, overrides_settled.
  - by rewrite H3, G3, overrides_settled.
  - by rewrite H4, G4, overrides_settled.
Qed.

(** X4. [Put] changes no lookup of an address that renders differently from
    the one put, whatever its outcome: [Has] and [Get] answer as before. *)
Theorem Put_keeps_other_lookups miner m a :
  addr_String a ≠ addr_String (Addr miner) →
  Has (Put miner m).2 a = Has m a ∧ Get (Put miner m).2 a = Get m a.
Proof.
  intros Hne. unfold Has, Get.
  destruct (Put_miners miner m) as [->|(_ & _ & ->)]; [done|].
  apply lookups_skip_appended. unfold registered. congruence.
Qed.

(** X5. [Set] never changes which addresses are registered, nor any id or
    name, whatever its outcome: the addresses, ids and names of the list are
    those from before the call, in the same order, so [Count], [Has] and
    [Get] answer as before. *)
Theorem Set_keeps_addresses_and_labels miner m :
  (λ r, (Addr r, Id r, Name r)) <$> miners (Set_ miner m).2 =
    (λ r, (Addr r, Id r, Name r)) <$> miners m ∧
  Count (Set_ miner m).2 = Count m ∧
  (∀ a, Has (Set_ miner m).2 a = Has m a ∧ Get (Set_ miner m).2 a = Get m a).
Proof.
  assert ((λ r, (Addr r, Id r, Name r)) <$> miners (Set_ miner m).2 =
          (λ r, (Addr r, Id r, Name r)) <$> miners m) as Hlabels.
  { destruct (Set_miners miner m)
      as [[_ ->]|(pre & cur & post & Hms & _ & _ & _ & ->)]; [done|].
    rewrite Hms, !fmap_app, !fmap_cons. by rewrite merge_labels. }
  assert (Addr <$> miners (Set_ miner m).2 = Addr <$> miners m) as Haddrs.
  { apply (f_equal (fmap (λ p : Address * string * string, p.1.1))) in Hlabels.
    by rewrite <- !list_fmap_compose in Hlabels. }
  split_and!; [done| |].
  - unfold Count. by rewrite <- (length_fmap Addr), Haddrs, length_fmap.
  - intros a. unfold Has, Get. by apply lookups_read_addresses.
Qed.

(** X6. A second [Set] of the same incoming record leaves the list in memory
    as the first one left it, whatever the outcome of either call. *)
Theorem Set_twice_is_Set_once miner m :
  miners (Set_ miner (Set_ miner m).2).2 = miners (Set_ miner m).2.
Proof.
  destruct (Set_miners miner m)
    as [[Hnone ->]|(pre & cur & post & Hms & Hpre & Hcur & _ & Hms1)].
  - simpl. unfold Set_. by rewrite Set_loop_miss.
  - assert (registered (Addr miner) (merge miner cur)) as Hcur'.
    { unfold registered in *.
      by destruct (merge_fields miner cur) as (-> & _). }
    destruct (Set_hit miner pre (merge miner cur) post (Set_ miner m).2
                Hms1 Hpre Hcur') as [-> Halter].
    by rewrite Set_at_miners, Halter, merge_idempotent.
Qed.

(** X7. The invariant of the data model, at most one record per address, is
    kept by each of [Put], [Set] and [Remove], whatever the outcome. *)
Theorem mutations_keep_unique_addrs m :
  unique_addrs (miners m) →
  (∀ miner, unique_addrs (miners (Put miner m).2)) ∧
  (∀ miner, unique_addrs (miners (Set_ miner m).2)) ∧
  (∀ addrs, unique_addrs (miners (Remove addrs m).2)).
Proof.
  intros Huniq. split_and!.
  - intros miner. by apply Put_unique_addrs.
  - intros miner. unfold unique_addrs in *.
    destruct (Set_miners miner m)
      as [[_ ->]|(pre & cur & post & Hms & _ & _ & _ & ->)]; [done|].
    rewrite Hms in Huniq. rewrite !fmap_app, !fmap_cons in *.
    by destruct (merge_fields miner cur) as (-> & _).
  - intros addrs. unfold Remove. rewrite Remove_loop_filter. simpl.
    destruct (Marshal _) as [b [e|]]; [done|].
    destruct (ds_Put _ _ _) as [[e|] ds]; [done|]. simpl.
    unfold unique_addrs in *. eapply sublist_NoDup; [exact Huniq|].
    apply fmap_sublist, sublist_filter.
Qed.

End Frames.

(** ** Memory and store *)

Section MirrorKept.
Context {Address : Type} `{!AddressCodec Address} `{!JSONCodec Address}.
Implicit Types (m : MinerManager Address) (r miner cur : MinerInfo Address).
Implicit Types (a addr : Address) (addrs : list Address).

Lemma ds_Put_other ds k v k' :
  k ≠ k' → cells (ds_Put ds k v).2 !! k' = cells ds !! k'.
Proof.
  intros Hne. unfold ds_Put. destruct (next_fault ds); simpl; [done|].
  by apply lookup_insert_ne.
Qed.

Lemma keys_differ : NewKey actorKey ≠ NewKey defaultKey.
Proof. done. Qed.

(** The outcomes of serialising a list and writing it under the list key. *)
Lemma written_in_sync ms b ds ds' :
  Marshal ms = (b, None) →
  ds_Put ds (NewKey actorKey) b = (None, ds') →
  in_sync {| miners := ms; da := ds' |}.
Proof.
  intros Hjson Hput. exists b. split; [done|]. simpl.
  rewrite (ds_Put_ok _ _ _ _ Hput). apply lookup_insert_eq.
Qed.

Lemma refused_in_sync m b e ds' :
  in_sync m →
  ds_Put (da m) (NewKey actorKey) b = (Some e, ds') →
  in_sync {| miners := miners m; da := ds' |}.
Proof.
  intros (b0 & Hjson & Hcell) Hput. exists b0. split; [done|]. simpl.
  by rewrite (ds_Put_failed _ _ _ _ _ Hput).
Qed.

(** X8. If the store holds the serialisation of the list in memory, it still
    does after [Put] and after [Remove], whatever their outcome, and after
    every [Set] that returned no error. *)
Theorem mutations_keep_the_mirror m :
  in_sync m →
  (∀ miner, in_sync (Put miner m).2) ∧
  (∀ addrs, in_sync (Remove addrs m).2) ∧
  (∀ miner, (Set_ miner m).1 = None → in_sync (Set_ miner m).2).
Proof.
  intros Hsync. split_and!.
  - intros miner. unfold Put. destruct (Has m (Addr miner)); [done|].
    destruct (Marshal _) as [b [e|]] eqn:Hjson; [done|].
    destruct (ds_Put _ _ _) as [[e|] ds] eqn:Hput.
    + by eapply refused_in_sync.
    + by eapply written_in_sync.
  - intros addrs. unfold Remove.
    destruct (Marshal _) as [b [e|]] eqn:Hjson; [done|].
    destruct (ds_Put _ _ _) as [[e|] ds] eqn:Hput.
    + by eapply refused_in_sync.
    + by eapply written_in_sync.
  - intros miner.
    destruct (Set_miners miner m)
      as [[_ ->]|(pre & cur & post & _ & _ & _ & -> & _)]; [done|].
    unfold Set_at. simpl.
    destruct (Marshal _) as [b [e|]] eqn:Hjson; [done|].
    destruct (ds_Put _ _ _) as [[e|] ds] eqn:Hput; [done|]. intros _.
    by eapply written_in_sync.
Qed.

(** X9. [Remove] swaps the list in memory only after the write: whenever it
    returns an error the list and the content of the store are those from
    before the call, and whenever it returns no error the list is the one of
    the survivors and the store holds its serialisation. *)
Theorem Remove_swaps_only_after_the_write addrs m :
  ((Remove addrs m).1 ≠ None →
     miners (Remove addrs m).2 = miners m ∧
     cells (da (Remove addrs m).2) = cells (da m)) ∧
  ((Remove addrs m).1 = None →
     miners (Remove addrs m).2 = filter (equals_all addrs) (miners m) ∧
     in_sync (Remove addrs m).2).
Proof.
  unfold Remove. rewrite Remove_loop_filter. simpl.
  destruct (Marshal _) as [b [e|]] eqn:Hjson; [done|].
  destruct (ds_Put _ _ _) as [[e|] ds] eqn:Hput; simpl.
  - split; [|done]. intros _. split; [done|]. by eapply ds_Put_failed.
  - split; [done|]. intros _. split; [done|]. by eapply written_in_sync.
Qed.

(** X10. [Remove] never adds or reorders records: in every outcome the list
    it leaves is a sublist of the one it found, so [Count] does not grow. *)
Theorem Remove_leaves_a_sublist addrs m :
  miners (Remove addrs m).2 `sublist_of` miners m ∧
  Count (Remove addrs m).2 ≤ Count m.
Proof.
  assert (miners (Remove addrs m).2 `sublist_of` miners m) as Hsub.
  { unfold Remove. rewrite Remove_loop_filter. simpl.
    destruct (Marshal _) as [b [e|]]; [done|].
    destruct (ds_Put _ _ _) as [[e|] ds]; [done|]. apply sublist_filter. }
  split; [done|]. by apply sublist_length.
Qed.

Lemma filter_equals_all_twice addrs (ms : list (MinerInfo Address)) :
  filter (equals_all addrs) (filter (equals_all addrs) ms) =
  filter (equals_all addrs) ms.
Proof.
  rewrite list_filter_filter. apply list_filter_iff. intros r. tauto.
Qed.

(** X11. After a [Remove] that returned no error, a second [Remove] with the
    same removal set leaves the list in memory as it is, whatever its
    outcome. *)
Theorem Remove_twice_is_Remove_once addrs m :
  (Remove addrs m).1 = None →
  miners (Remove addrs (Remove addrs m).2).2 = miners (Remove addrs m).2.
Proof.
  intros Hok.
  destruct (Remove_swaps_only_after_the_write addrs m) as [_ Hdone].
  destruct (Hdone Hok) as [Hms _].
  set (m1 := (Remove addrs m).2) in *.
  destruct (Remove_swaps_only_after_the_write addrs m1) as [Hfail Hdone1].
  destruct ((Remove addrs m1).1) eqn:E.
  - by apply Hfail.
  - destruct (Hdone1 eq_refl) as [-> _]. rewrite Hms.
    apply filter_equals_all_twice.
Qed.

(** X12. A registry whose store holds the serialisation of its list can be
    opened again: if the store answers and the decoder reads back what the
    encoder wrote for this list, [NewMinerManger] on the store returns no
    error and a registry with the same list. *)
Theorem NewMinerManger_reopens m :
  in_sync m →
  next_fault (da m) = None →
  (∀ b, Marshal (miners m) = (b, None) → Unmarshal b = (miners m, None)) →
  (NewMinerManger (da m)).1 =
    (Some {| miners := miners m; da := (ds_Get (da m) (NewKey actorKey)).2 |},
     None).
Proof.
  intros (b & Hjson & Hcell) Hok Hback.
  pose proof (ds_Get_found _ _ _ Hok Hcell) as Hget.
  unfold NewMinerManger. rewrite (ds_Get_result (da m)), Hget. simpl.
  by rewrite (Hback _ Hjson).
Qed.

End MirrorKept.

(** ** The default pointer *)

Section Pointer.
Context {Address : Type} `{!AddressCodec Address} `{!JSONCodec Address}.
Implicit Types (m : MinerManager Address) (r miner : MinerInfo Address).
Implicit Types (a addr : Address) (addrs : list Address).

(** [Default] when the get returned bytes. *)
Lemma Default_read m b ds :
  ds_Get (da m) (NewKey defaultKey) = ((b, None), ds) →
  Default m = (NewFromBytes b, {| miners := miners m; da := ds |}).
Proof. intros Hget. unfold Default. by rewrite Hget. Qed.

Lemma ds_Get_cases ds k :
  (∃ e, (ds_Get ds k).1 = ([], Some e)) ∨
  (∃ b, (ds_Get ds k).1 = (b, None) ∧ next_fault ds = None ∧ cells ds !! k = Some b).
Proof.
  unfold ds_Get. destruct (next_fault ds) as [e|]; [left; by exists e|].
  destruct (cells ds !! k) as [b|]; [right; by exists b|left; by eexists].
Qed.

(** X13. Once [SetDefault] has returned no error, [Default] on a store that
    answers decodes the bytes of that address, whether or not the address is
    registered and even if the registry is empty; it sends no write and
    leaves the list alone. *)
Theorem SetDefault_then_Default a m :
  (SetDefault a m).1 = None →
  next_fault (da (SetDefault a m).2) = None →
  (Default (SetDefault a m).2).1 = NewFromBytes (addr_Bytes a) ∧
  miners (Default (SetDefault a m).2).2 = miners m ∧
  writes (da (Default (SetDefault a m).2).2) =
    writes (da m) ++ [(NewKey defaultKey, addr_Bytes a)].
Proof.
  unfold SetDefault.
  pose proof (ds_Put_writes (da m) (NewKey defaultKey) (addr_Bytes a)) as Hlog.
  destruct (ds_Put _ _ _) as [[e|] ds] eqn:Hput; [done|]. simpl in *.
  intros _ Hok.
  pose proof (ds_Get_after_Put _ _ _ _ Hput Hok) as Hget.
  pose proof (ds_Get_keeps ds (NewKey defaultKey)) as [_ Hw].
  rewrite (Default_read _ (addr_Bytes a) (ds_Get ds (NewKey defaultKey)).2)
    by (simpl; by rewrite <- Hget, <- ds_Get_result).
  simpl. by rewrite Hw, Hlog.
Qed.

(** X14. The list mutations and the default pointer use separate keys:
    [Put], [Set] and [Remove] never change what the store holds under the
    default key, and [SetDefault] and [Default] never change the list in
    memory nor what the store holds under the list key. *)
Theorem list_and_default_are_separate m :
  (∀ miner, cells (da (Put miner m).2) !! NewKey defaultKey =
            cells (da m) !! NewKey defaultKey) ∧
  (∀ miner, cells (da (Set_ miner m).2) !! NewKey defaultKey =
            cells (da m) !! NewKey defaultKey) ∧
  (∀ addrs, cells (da (Remove addrs m).2) !! NewKey defaultKey =
            cells (da m) !! NewKey defaultKey) ∧
  (∀ a, miners (SetDefault a m).2 = miners m ∧
        cells (da (SetDefault a m).2) !! NewKey actorKey =
          cells (da m) !! NewKey actorKey) ∧
  (miners (Default m).2 = miners m ∧
   cells (da (Default m).2) !! NewKey actorKey = cells (da m) !! NewKey actorKey).
Proof.
  pose proof keys_differ as Hne.
  split; [|split; [|split; [|split]]].
  - intros miner. unfold Put. destruct (Has m (Addr miner)); [done|].
    destruct (Marshal _) as [b [e|]]; [done|].
    pose proof (ds_Put_other (da m) _ b _ Hne) as Hcell.
    by destruct (ds_Put _ _ _) as [[e|] ds].
  - intros miner.
    destruct (Set_miners miner m)
      as [[_ ->]|(pre & cur & post & _ & _ & _ & -> & _)]; [done|].
    unfold Set_at. simpl. destruct (Marshal _) as [b [e|]]; [done|].
    pose proof (ds_Put_other (da m) _ b _ Hne) as Hcell.
    by destruct (ds_Put _ _ _) as [[e|] ds].
  - intros addrs. unfold Remove. destruct (Marshal _) as [b [e|]]; [done|].
    pose proof (ds_Put_other (da m) _ b _ Hne) as Hcell.
    by destruct (ds_Put _ _ _) as [[e|] ds].
  - intros a. unfold SetDefault.
    pose proof (ds_Put_other (da m) _ (addr_Bytes a) _ (not_eq_sym Hne)) as Hcell.
    by destruct (ds_Put _ _ _) as [e ds].
  - pose proof (ds_Get_keeps (da m) (NewKey defaultKey)) as [Hc _].
    unfold Default. rewrite (ds_Get_result (da m)).
    generalize dependent (ds_Get (da m) (NewKey defaultKey)).2.
    intros ds0 Hc.
    destruct (ds_Get (da m) (NewKey defaultKey)).1 as [b [e|]]; simpl.
    + destruct (miners m) as [|first rest] eqn:Hms; simpl; [by rewrite Hc|].
      unfold SetDefault. simpl.
      pose proof (ds_Put_other ds0 _ (addr_Bytes (Addr first)) _
                    (not_eq_sym Hne)) as Hcell.
      destruct (ds_Put _ _ _) as [[e'|] ds]; simpl in *; by rewrite Hcell, Hc.
    + by rewrite Hc.
Qed.

(** X15. A default that [Default] has returned without error stays: if the
    bytes of that address decode to it, a second [Default] on a store that
    answers returns the same address, sends no write, and does so even after
    the list has been changed in between by anything that leaves the default
    key alone. *)
Theorem Default_is_stable m a m' :
  (Default m).1 = (a, None) →
  NewFromBytes (addr_Bytes a) = (a, None) →
  next_fault (da m') = None →
  cells (da m') !! NewKey defaultKey =
    cells (da (Default m).2) !! NewKey defaultKey →
  (Default m').1 = (a, None) ∧
  miners (Default m').2 = miners m' ∧
  writes (da (Default m').2) = writes (da m').
Proof.
  intros Hfirst Hback Hok Hcell.
  assert (∃ b, cells (da (Default m).2) !! NewKey defaultKey = Some b ∧
               NewFromBytes b = (a, None)) as (b & Hb & Hdec).
  { pose proof (ds_Get_keeps (da m) (NewKey defaultKey)) as [Hc _].
    revert Hfirst. unfold Default. rewrite (ds_Get_result (da m)).
    destruct (ds_Get_cases (da m) (NewKey defaultKey))
      as [[e ->]|(b & -> & _ & Hb)]; simpl.
    - destruct (miners m) as [|first rest]; simpl; [done|].
      unfold SetDefault. simpl.
      destruct (ds_Put _ _ _) as [[e'|] ds] eqn:Hput; simpl; [done|].
      intros [= <-]. exists (addr_Bytes (Addr first)). split; [|done].
      rewrite (ds_Put_ok _ _ _ _ Hput). apply lookup_insert_eq.
    - intros Hdec. exists b. split; [by rewrite Hc|done]. }
  rewrite Hb in Hcell.
  pose proof (ds_Get_found _ _ _ Hok Hcell) as Hget.
  pose proof (ds_Get_keeps (da m') (NewKey defaultKey)) as [_ Hw].
  rewrite (Default_read m' b (ds_Get (da m') (NewKey defaultKey)).2)
    by (by rewrite <- Hget, <- ds_Get_result).
  by rewrite Hdec.
Qed.

End Pointer.

(** * Properties of the command line *)

(** ** Sector sizes *)

Section SectorSizes.
Context `{!SealProofs}.

(** The switch of [isSupportedSectorSize] on one proof type. *)
Lemma isSupportedSectorSize_existsb ssize :
  ∃ f : Z → bool, ∀ spfs, isSupportedSectorSize spfs ssize = existsb f spfs.
Proof.
  exists (λ spf,
    if (spf =? RegisteredSealProof_StackedDrg2KiBV1)%Z then (ssize =? 2048)%Z
    else if (spf =? RegisteredSealProof_StackedDrg8MiBV1)%Z then (ssize =? Z.shiftl 8 20)%Z
    else if (spf =? RegisteredSealProof_StackedDrg512MiBV1)%Z then (ssize =? Z.shiftl 512 20)%Z
    else if (spf =? RegisteredSealProof_StackedDrg32GiBV1)%Z then (ssize =? Z.shiftl 32 30)%Z
    else if (spf =? RegisteredSealProof_StackedDrg64GiBV1)%Z then (ssize =? Z.shiftl 64 30)%Z
    else false).
  induction spfs as [|spf spfs IH]; [done|].
  cbn [isSupportedSectorSize existsb]. rewrite IH.
  repeat (case_match; try done).
Qed.

Lemma distinct_proofs_ne :
  distinct_proofs →
  RegisteredSealProof_StackedDrg2KiBV1 ≠ RegisteredSealProof_StackedDrg8MiBV1 ∧
  RegisteredSealProof_StackedDrg2KiBV1 ≠ RegisteredSealProof_StackedDrg512MiBV1 ∧
  RegisteredSealProof_StackedDrg2KiBV1 ≠ RegisteredSealProof_StackedDrg32GiBV1 ∧
  RegisteredSealProof_StackedDrg2KiBV1 ≠ RegisteredSealProof_StackedDrg64GiBV1 ∧
  RegisteredSealProof_StackedDrg8MiBV1 ≠ RegisteredSealProof_StackedDrg512MiBV1 ∧
  RegisteredSealProof_StackedDrg8MiBV1 ≠ RegisteredSealProof_StackedDrg32GiBV1 ∧
  RegisteredSealProof_StackedDrg8MiBV1 ≠ RegisteredSealProof_StackedDrg64GiBV1 ∧
  RegisteredSealProof_StackedDrg512MiBV1 ≠ RegisteredSealProof_StackedDrg32GiBV1 ∧
  RegisteredSealProof_StackedDrg512MiBV1 ≠ RegisteredSealProof_StackedDrg64GiBV1 ∧
  RegisteredSealProof_StackedDrg32GiBV1 ≠ RegisteredSealProof_StackedDrg64GiBV1.
Proof.
  unfold distinct_proofs. rewrite !NoDup_cons, !not_elem_of_cons. tauto.
Qed.

(** X16. Given that the five proof types named by the switch are different
    numbers, a sector size is reported as supported exactly when it is the
    size of one of the five that the map of supported proof types contains:
    2 KiB, 8 MiB, 512 MiB, 32 GiB or 64 GiB.  Every other proof type in the
    map supports nothing. *)
Theorem isSupportedSectorSize_iff spfs ssize :
  distinct_proofs →
  isSupportedSectorSize spfs ssize = true ↔
    (RegisteredSealProof_StackedDrg2KiBV1 ∈ spfs ∧ ssize = 2048%Z) ∨
    (RegisteredSealProof_StackedDrg8MiBV1 ∈ spfs ∧ ssize = 8388608%Z) ∨
    (RegisteredSealProof_StackedDrg512MiBV1 ∈ spfs ∧ ssize = 536870912%Z) ∨
    (RegisteredSealProof_StackedDrg32GiBV1 ∈ spfs ∧ ssize = 34359738368%Z) ∨
    (RegisteredSealProof_StackedDrg64GiBV1 ∈ spfs ∧ ssize = 68719476736%Z).
Proof.
  intros Hd. apply distinct_proofs_ne in Hd.
  destruct Hd as (? & ? & ? & ? & ? & ? & ? & ? & ? & ?).
  change (Z.shiftl 8 20) with 8388608%Z.
  induction spfs as [|spf spfs IH].
  - simpl. split; [done|]. rewrite !elem_of_nil. tauto.
  - cbn [isSupportedSectorSize].
    change (Z.shiftl 8 20) with 8388608%Z.
    change (Z.shiftl 512 20) with 536870912%Z.
    change (Z.shiftl 32 30) with 34359738368%Z.
    change (Z.shiftl 64 30) with 68719476736%Z.
    rewrite !elem_of_cons.
    repeat (case_match; try rewrite IH);
      repeat match goal with
             | E : (_ =? _)%Z = true |- _ => apply Z.eqb_eq in E
             | E : (_ =? _)%Z = false |- _ => apply Z.eqb_neq in E
             end;
      subst; split; try tauto; intuition congruence.
Qed.

(** X17. The answer does not depend on the order in which the loop visits the
    map of supported proof types, nor on repetitions: two lists with the same
    members give the same answer. *)
Theorem isSupportedSectorSize_any_order spfs spfs' ssize :
  (∀ spf, spf ∈ spfs ↔ spf ∈ spfs') →
  isSupportedSectorSize spfs ssize = isSupportedSectorSize spfs' ssize.
Proof.
  intros Hsame. destruct (isSupportedSectorSize_existsb ssize) as [f Hf].
  rewrite !Hf. apply eq_true_iff_eq. rewrite !existsb_exists.
  split; intros (x & Hx & Hfx); exists x; split; try done;
    apply list_elem_of_In; apply Hsame; by apply list_elem_of_In.
Qed.

End SectorSizes.

(** ** Arguments and actions *)

(** Membership of an event in a trace that is written out: the cases where
    the event is another one are closed. *)
Ltac in_trace H :=
  simpl in H; rewrite ?elem_of_cons, ?elem_of_nil in H;
  repeat match type of H with _ ∨ _ => destruct H as [H|H] end;
  try discriminate H; try done.

Section Actions.
Context {Address : Type} `{!AddressParser Address}.
Implicit Types (node : MinerAPI Address) (args pre post : list string).
Implicit Types (addrs acc : list Address) (s : string) (a : Address).

Lemma parses_functional s a a' : parses s a → parses s a' → a = a'.
Proof. unfold parses. congruence. Qed.

Lemma parses_all_functional args addrs addrs' :
  Forall2 parses args addrs → Forall2 parses args addrs' → addrs = addrs'.
Proof.
  intros H. revert addrs'. induction H as [|s a args addrs Hs _ IH];
    intros addrs' H'; inv H'; [done|].
  f_equal; [by eapply parses_functional | by apply IH].
Qed.

Lemma not_all_parse pre s post a e addrs :
  NewFromString s = (a, Some e) → ¬ Forall2 parses (pre ++ s :: post) addrs.
Proof.
  intros Hs Hall. apply Forall2_app_inv_l in Hall as (k1 & k2 & _ & Hall & _).
  inv Hall. unfold parses in *. congruence.
Qed.

(** The two ways out of the loop over the arguments. *)
Lemma parse_loop_spec i args acc :
  (∃ addrs, parse_loop i args acc = (acc ++ addrs, None) ∧
            Forall2 parses args addrs) ∨
  (∃ pre s post a e acc',
      args = pre ++ s :: post ∧ (∃ addrs, Forall2 parses pre addrs) ∧
      NewFromString s = (a, Some e) ∧
      parse_loop i args acc = (acc', Some (ParsingMiner (i + length pre) e))).
Proof.
  revert i acc. induction args as [|s args IH]; intros i acc.
  - left. exists []. by rewrite app_nil_r.
  - cbn [parse_loop]. destruct (NewFromString s) as [a [e|]] eqn:Hs.
    + right. exists [], s, args, a, e, acc. rewrite Nat.add_0_r.
      split_and!; try done. by exists [].
    + destruct (IH (S i) (acc ++ [a]))
        as [(addrs & -> & Hall)|(pre & s' & post & a' & e & acc' & -> & [l Hl] & Hs' & ->)].
      * left. exists (a :: addrs). rewrite <- app_assoc. split; [done|].
        by constructor.
      * right. exists (s :: pre), s', post, a', e, acc'.
        split_and!; try done.
        -- exists (a :: l). by constructor.
        -- simpl. do 3 f_equal. lia.
Qed.

(** X18. The loop over the arguments of the state, start and stop commands
    ends without error exactly when every argument parses as an address, and
    then it has collected the parsed addresses in the order of the
    arguments. *)
Theorem parse_loop_collects_all args addrs :
  parse_loop 0 args [] = (addrs, None) ↔ Forall2 parses args addrs.
Proof.
  destruct (parse_loop_spec 0 args [])
    as [(l & Hrun & Hall)|(pre & s & post & a & e & acc' & -> & _ & Hs & Hrun)];
    rewrite Hrun.
  - simpl. split.
    + by intros [= <-].
    + intros Hall'. by rewrite (parses_all_functional _ _ _ Hall Hall').
  - split; [done|]. intros Hall. by eapply not_all_parse in Hall.
Qed.

(** X19. When the loop over the arguments ends with an error, the error is
    the wrapped parse error of the first argument that does not parse, with
    the index of that argument: all arguments before it parse. *)
Theorem parse_loop_reports_first_failure args ce :
  (parse_loop 0 args []).2 = Some ce →
  ∃ pre s post a e,
    args = pre ++ s :: post ∧ (∃ addrs, Forall2 parses pre addrs) ∧
    NewFromString s = (a, Some e) ∧ ce = ParsingMiner (length pre) e.
Proof.
  destruct (parse_loop_spec 0 args [])
    as [(l & -> & _)|(pre & s & post & a & e & acc' & Hargs & Hpre & Hs & ->)];
    [done|].
  simpl. intros [= <-]. by exists pre, s, post, a, e.
Qed.


(** X21. The start command calls [Start] on the node only when the node is
    reached and every argument parses, at most once and with the parsed
    addresses in the order of the arguments.  It returns no error exactly
    when it prints its success line, and whenever the node was reached the
    deferred close is the last thing it does. *)
Theorem startMiningCmd_Action_runs node args :
  let run := startMiningCmd_Action node args in
  (∀ addrs, CallStart addrs ∈ run.1 ↔
            dial node = None ∧ Forall2 parses args addrs) ∧
  (run.2 = None ↔ Println "start mining success." ∈ run.1) ∧
  (dial node = None → last run.1 = Some Close).
Proof.
  cbv zeta. unfold startMiningCmd_Action.
  destruct (dial node) as [e|] eqn:Hdial.
  - split_and!; [|split; [done|intros Hin; in_trace Hin]|done].
    intros addrs. split; [intros Hin; in_trace Hin | by intros [? _]].
  - pose proof (parse_loop_collects_all args) as Hall.
    destruct (parse_loop 0 args []) as [l [ce|]] eqn:Hrun.
    + split_and!; [|split; [done|intros Hin; in_trace Hin]|done].
      intros addrs. split; [intros Hin; in_trace Hin|].
      intros [_ H]. by apply Hall in H.
    + assert (Forall2 parses args l) as Hl by (by apply Hall).
      destruct (Start node l) as [e|]; simpl.
      * split_and!; [|split; [done|intros Hin; in_trace Hin]|done].
        intros addrs. split.
        -- intros Hin. in_trace Hin. by simplify_eq.
        -- intros [_ H]. rewrite (parses_all_functional _ _ _ H Hl).
           right. by left.
      * split_and!; [|split; [intros _; do 2 right; by left|done]|done].
        intros addrs. split.
        -- intros Hin. in_trace Hin. by simplify_eq.
        -- intros [_ H]. rewrite (parses_all_functional _ _ _ H Hl).
           right. by left.
Qed.

(** X22. The stop command calls [Stop] on the node only when the node is
    reached and every argument parses, at most once and with the parsed
    addresses in the order of the arguments.  It returns no error exactly
    when it prints its success line, and whenever the node was reached the
    deferred close is the last thing it does. *)
Theorem stopMiningCmd_Action_runs node args :
  let run := stopMiningCmd_Action node args in
  (∀ addrs, CallStop addrs ∈ run.1 ↔
            dial node = None ∧ Forall2 parses args addrs) ∧
  (run.2 = None ↔ Println "stop mining success." ∈ run.1) ∧
  (dial node = None → last run.1 = Some Close).
Proof.
  cbv zeta. unfold stopMiningCmd_Action.
  destruct (dial node) as [e|] eqn:Hdial.
  - split_and!; [|split; [done|intros Hin; in_trace Hin]|done].
    intros addrs. split; [intros Hin; in_trace Hin | by intros [? _]].
  - pose proof (parse_loop_collects_all args) as Hall.
    destruct (parse_loop 0 args []) as [l [ce|]] eqn:Hrun.
    + split_and!; [|split; [done|intros Hin; in_trace Hin]|done].
      intros addrs. split; [intros Hin; in_trace Hin|].
      intros [_ H]. by apply Hall in H.
    + assert (Forall2 parses args l) as Hl by (by apply Hall).
      destruct (Stop node l) as [e|]; simpl.
      * split_and!; [|split; [done|intros Hin; in_trace Hin]|done].
        intros addrs. split.
        -- intros Hin. in_trace Hin. by simplify_eq.
        -- intros [_ H]. rewrite (parses_all_functional _ _ _ H Hl).
           right. by left.
      * split_and!; [|split; [intros _; do 2 right; by left|done]|done].
        intros addrs. split.
        -- intros Hin. in_trace Hin. by simplify_eq.
        -- intros [_ H]. rewrite (parses_all_functional _ _ _ H Hl).
           right. by left.
Qed.

End Actions.

(** ** More runs on the concrete codec and store *)

Section MoreRuns.
Import Fixture Bench.
#[local] Existing Instance plain_json.

Lemma Put_then_Get_witness :
  let m := registry [A] (sound ∅) in
  (Forall (λ r, ¬ registered (Addr B) r) (miners m) ∧ (Put B m).1 = None) ∧
  Get (Put B m).2 (Addr B) = Some (Count m) ∧
  miners (Put B m).2 !! Count m = Some B ∧
  Has (Put B m).2 (Addr B) = true ∧
  Count (Put B m).2 = S (Count m).
Proof.
  cbv zeta.
  assert (Forall (λ r, ¬ registered (Addr B) r) (miners (registry [A] (sound ∅))))
    as Hfresh by (repeat constructor; by vm_compute).
  assert ((Put B (registry [A] (sound ∅))).1 = None) as Hok by (by vm_compute).
  split; [by split|].
  exact (Put_then_Get B (registry [A] (sound ∅)) Hfresh Hok).
Defined.

Lemma Put_keeps_other_lookups_witness :
  let m := registry [A] (sound ∅) in
  addr_String (Addr A) ≠ addr_String (Addr B) ∧
  Has (Put B m).2 (Addr A) = Has m (Addr A) ∧
  Get (Put B m).2 (Addr A) = Get m (Addr A).
Proof.
  cbv zeta.
  assert (addr_String (Addr A) ≠ addr_String (Addr B)) as Hne by (by vm_compute).
  split; [exact Hne|].
  exact (Put_keeps_other_lookups B (registry [A] (sound ∅)) (Addr A) Hne).
Defined.

Lemma mutations_keep_unique_addrs_witness :
  let m := registry [A; B] (sound ∅) in
  unique_addrs (miners m) ∧
  unique_addrs (miners (Put C m).2) ∧
  unique_addrs (miners (Set_ update_B m).2) ∧
  unique_addrs (miners (Remove [Addr A] m).2).
Proof.
  cbv zeta.
  assert (unique_addrs (miners (registry [A; B] (sound ∅)))) as Huniq
    by (unfold unique_addrs; apply (bool_decide_unpack _); by vm_compute).
  split; [exact Huniq|].
  destruct (mutations_keep_unique_addrs (registry [A; B] (sound ∅)) Huniq)
    as (Hput & Hset & Hremove).
  split_and!; [apply Hput | apply Hset | apply Hremove].
Defined.

Lemma mutations_keep_the_mirror_witness :
  let m := registry [A; B] (sound {[NewKey actorKey := (Marshal [A; B]).1]}) in
  (in_sync m ∧ (Set_ update_B m).1 = None) ∧
  in_sync (Put C m).2 ∧
  in_sync (Remove [Addr A] m).2 ∧
  in_sync (Set_ update_B m).2.
Proof.
  cbv zeta.
  assert (in_sync (registry [A; B]
                     (sound {[NewKey actorKey := (Marshal [A; B]).1]}))) as Hsync
    by (exists (Marshal [A; B]).1; split; by vm_compute).
  assert ((Set_ update_B
             (registry [A; B]
                (sound {[NewKey actorKey := (Marshal [A; B]).1]}))).1 = None)
    as Hok by (by vm_compute).
  split; [by split|].
  destruct (mutations_keep_the_mirror _ Hsync) as (Hput & Hremove & Hset).
  split_and!; [apply Hput | apply Hremove | by apply Hset].
Defined.

Lemma Remove_twice_is_Remove_once_witness :
  let m := registry [A; B; C] (sound ∅) in
  (Remove [Addr A] m).1 = None ∧
  miners (Remove [Addr A] (Remove [Addr A] m).2).2 =
    miners (Remove [Addr A] m).2.
Proof.
  cbv zeta.
  assert ((Remove [Addr A] (registry [A; B; C] (sound ∅))).1 = None) as Hok
    by (by vm_compute).
  split; [exact Hok|].
  exact (Remove_twice_is_Remove_once [Addr A] (registry [A; B; C] (sound ∅)) Hok).
Defined.

Lemma SetDefault_then_Default_witness :
  let m := registry [] (sound ∅) in
  let a := "f09999" in
  ((SetDefault a m).1 = None ∧ next_fault (da (SetDefault a m).2) = None) ∧
  (Default (SetDefault a m).2).1 = NewFromBytes (addr_Bytes a) ∧
  miners (Default (SetDefault a m).2).2 = miners m ∧
  writes (da (Default (SetDefault a m).2).2) =
    writes (da m) ++ [(NewKey defaultKey, addr_Bytes a)].
Proof.
  cbv zeta. split; [by split|].
  exact (SetDefault_then_Default "f09999" (registry [] (sound ∅)) eq_refl eq_refl).
Defined.

Lemma Default_is_stable_witness :
  let m := registry [A; B] (sound ∅) in
  let m' := registry [B] (da (Default m).2) in
  ((Default m).1 = (Addr A, None) ∧
   NewFromBytes (addr_Bytes (Addr A)) = (Addr A, None) ∧
   next_fault (da m') = None) ∧
  (Default m').1 = (Addr A, None) ∧
  miners (Default m').2 = miners m' ∧
  writes (da (Default m').2) = writes (da m').
Proof.
  cbv zeta.
  assert ((Default (registry [A; B] (sound ∅))).1 = (Addr A, None)) as Hfirst
    by (by vm_compute).
  assert (NewFromBytes (addr_Bytes (Addr A)) = (Addr A, None)) as Hback
    by (by vm_compute).
  split; [by split_and!|].
  exact (Default_is_stable (registry [A; B] (sound ∅)) (Addr A)
           (registry [B] (da (Default (registry [A; B] (sound ∅))).2))
           Hfirst Hback eq_refl eq_refl).
Defined.

Lemma isSupportedSectorSize_iff_witness :
  @distinct_proofs v1_proofs ∧
  @isSupportedSectorSize v1_proofs [8; 3]%Z 34359738368%Z = true ∧
  @isSupportedSectorSize v1_proofs [8; 3]%Z 2048%Z ≠ true.
Proof.
  assert (@distinct_proofs v1_proofs) as Hd
    by (unfold distinct_proofs; apply (bool_decide_unpack _); by vm_compute).
  split; [exact Hd|]. split.
  - apply (@isSupportedSectorSize_iff v1_proofs [8; 3]%Z _ Hd).
    do 3 right. left. split; [|done]. right. by left.
  - intros Hyes.
    apply (@isSupportedSectorSize_iff v1_proofs [8; 3]%Z _ Hd) in Hyes.
    destruct Hyes as [[Hin _]|[[_ ?]|[[_ ?]|[[_ ?]|[_ ?]]]]]; try done.
    in_trace Hin.
Defined.

Lemma isSupportedSectorSize_any_order_witness :
  (∀ spf : Z, spf ∈ [0; 3]%Z ↔ spf ∈ [3; 0; 3]%Z) ∧
  @isSupportedSectorSize v1_proofs [0; 3]%Z 2048%Z =
    @isSupportedSectorSize v1_proofs [3; 0; 3]%Z 2048%Z.
Proof.
  assert (∀ spf : Z, spf ∈ [0; 3]%Z ↔ spf ∈ [3; 0; 3]%Z) as Hsame.
  { intros spf. rewrite !elem_of_cons, !elem_of_nil. tauto. }
  split; [exact Hsame|].
  exact (@isSupportedSectorSize_any_order v1_proofs _ _ _ Hsame).
Defined.

Lemma parse_loop_reports_first_failure_witness :
  let args := ["f01000"; "t01001"; "f01002"; "oops"] in
  let ce := ParsingMiner 1 (ErrAddress "unknown address network") in
  (@parse_loop _ plain_parser 0 args []).2 = Some ce ∧
  ∃ pre s post a e,
    args = pre ++ s :: post ∧ (∃ addrs, Forall2 (@parses _ plain_parser) pre addrs) ∧
    @NewFromString _ plain_parser s = (a, Some e) ∧ ce = ParsingMiner (length pre) e.
Proof.
  cbv zeta. split; [reflexivity|].
  exact (@parse_loop_reports_first_failure _ plain_parser
           ["f01000"; "t01001"; "f01002"; "oops"] _ eq_refl).
Defined.

End MoreRuns.

Section ReopenRun.
Import Fixture Bench.
#[local] Existing Instance table_json.

Lemma NewMinerManger_reopens_witness :
  let m := (Put B (registry [A] (sound ∅))).2 in
  (in_sync m ∧ next_fault (da m) = None ∧
   ∀ b, Marshal (miners m) = (b, None) → Unmarshal b = (miners m, None)) ∧
  (NewMinerManger (da m)).1 =
    (Some {| miners := [A; B]; da := (ds_Get (da m) (NewKey actorKey)).2 |}, None).
Proof.
  cbv zeta.
  assert (in_sync (Put B (registry [A] (sound ∅))).2) as Hsync
    by (exists (Marshal [A; B]).1; split; by vm_compute).
  assert (∀ b, Marshal (miners (Put B (registry [A] (sound ∅))).2) = (b, None) →
               Unmarshal b = (miners (Put B (registry [A] (sound ∅))).2, None))
    as Hback.
  { intros b Hb. vm_compute in Hb. injection Hb as <-. by vm_compute. }
  split; [by split_and!|].
  exact (NewMinerManger_reopens (Put B (registry [A] (sound ∅))).2
           Hsync eq_refl Hback).
Defined.

End ReopenRun.
